(** * Vector-figure reconstruction of [src/ragntex_processing.py]

    A shallow embedding of the grouping pipeline ([group_bounding_boxes],
    [process_large_drawing], [merge_bounding_boxes]), of the figure filter and
    of the two orchestrators ([extract_vector], [extract_pdf_ragntex]),
    followed by the properties of the specification stated against it.

    Coordinates are Python floats in the source; they are modelled by exact
    rationals ([Q]), so rounding is not part of the model.  Python lists are
    [list]s read with [!!] and written with [<[_:=_]>], the [defaultdict] of
    adjacency lists is a [gmap] read with [!!!], and exceptions are the
    [Raise] case of [result]. *)

From Stdlib Require Import QArith Qminmax Lqa Qabs.
From Stdlib Require Import Ascii String.
From stdpp Require Import base list gmap strings pretty.

(** ** Exceptions *)

Inductive exn : Type :=
  | TypeError          (* an operation applied to [None] *)
  | IndexError         (* a list read or written out of range *)
  | ZeroDivisionError  (* [//] by zero *)
  | LibraryError       (* a collaborator (rendering) failed *)
  | OutOfFuel.         (* not a Python exception: the recursion budget of the
                          model ran out; [dfs_returns] shows it never does *)

Inductive result (A : Type) : Type :=
  | Ok (a : A)
  | Raise (e : exn).
Arguments Ok {A} a.
Arguments Raise {A} e.

#[global] Instance result_ret : MRet result := @Ok.
#[global] Instance result_bind : MBind result :=
  λ A B f m, match m with Ok a => f a | Raise e => Raise e end.

(** [for x in l: s = body x s], stopping at the first exception. *)
Fixpoint for_each {A S : Type} (l : list A) (body : A → S → result S) (s : S)
    : result S :=
  match l with
  | [] => Ok s
  | x :: l' => s' ← body x s; for_each l' body s'
  end.

(** [l[i]] and [l[i] = x] on a Python list. *)
Definition list_index {A : Type} (l : list A) (i : nat) : result A :=
  match l !! i with Some x => Ok x | None => Raise IndexError end.

Definition list_store {A : Type} (l : list A) (i : nat) (x : A) : result (list A) :=
  if decide (i < length l) then Ok (<[i:=x]> l) else Raise IndexError.

(** [enumerate(l)] *)
Definition enumerate {A : Type} (l : list A) : list (nat * A) := imap pair l.

(** ** Rectangles ([fitz.Rect])

    [fitz] (PyMuPDF) is a library the repository imports; its rectangle type
    is a 4-sequence [(x0, y0, x1, y1)].  The constructor does not reorder the
    coordinates, so an inverted rectangle is a value of the type. *)

Record Rect : Type := mkRect { x0 : Q; y0 : Q; x1 : Q; y1 : Q }.

(** [rect + (a, b, c, d)]: component-wise sum with a 4-sequence. *)
Definition rect_add (r : Rect) (t : Q * Q * Q * Q) : Rect :=
  let '(a, b, c, d) := t in
  mkRect (x0 r + a) (y0 r + b) (x1 r + c) (y1 r + d).

Definition Qltb (a b : Q) : bool := negb (Qle_bool b a).

(** [r.is_empty] of [fitz.Rect], [x0 >= x1 or y0 >= y1]: a rectangle of zero
    or negative width or height is empty. *)
Definition rect_is_empty (r : Rect) : bool :=
  Qle_bool (x1 r) (x0 r) || Qle_bool (y1 r) (y0 r).

(** The operator [a | b] of [fitz.Rect], the library's union
    ([include_rect] applied to a copy of [a]): when [b] is empty the result
    is [a] as it is; otherwise, when [a] is empty, the result is [b];
    otherwise it is the smallest rectangle enclosing both.  So an empty
    operand adds nothing to a union, and the union of two empty rectangles is
    the left one.  The library's infinite rectangle, a sentinel at the ends of
    its coordinate range, is outside the model, as rounding is. *)
Definition rect_or (a b : Rect) : Rect :=
  if rect_is_empty b then a
  else if rect_is_empty a then b
  else mkRect (Qmin (x0 a) (x0 b)) (Qmin (y0 a) (y0 b))
              (Qmax (x1 a) (x1 b)) (Qmax (y1 a) (y1 b)).

(** The truth value of a [fitz.Rect], [not (max(r) == min(r) == 0)]: only
    the all-zero rectangle is false. *)
Definition rect_bool (r : Rect) : bool :=
  let hi := Qmax (Qmax (x0 r) (y0 r)) (Qmax (x1 r) (y1 r)) in
  let lo := Qmin (Qmin (x0 r) (y0 r)) (Qmin (x1 r) (y1 r)) in
  negb (Qeq_bool hi lo && Qeq_bool lo 0).

(** [a.intersects(b)] of [fitz.Rect]: the intersection is tested on open
    extents, and an empty rectangle intersects nothing. *)
Definition rect_intersects (a b : Rect) : bool :=
  negb (rect_is_empty a) && negb (rect_is_empty b)
  && Qltb (Qmax (x0 a) (x0 b)) (Qmin (x1 a) (x1 b))
  && Qltb (Qmax (y0 a) (y0 b)) (Qmin (y1 a) (y1 b)).

(** [a] encloses [b]: the union-sense superset of the spec. *)
Definition encloses (a b : Rect) : Prop :=
  (x0 a <= x0 b)%Q ∧ (y0 a <= y0 b)%Q ∧ (x1 b <= x1 a)%Q ∧ (y1 b <= y1 a)%Q.

(** The data model's invariant on a rectangle, and its four corners. *)
Definition valid (r : Rect) : Prop := (x0 r <= x1 r)%Q ∧ (y0 r <= y1 r)%Q.

(** A rectangle of positive width and height: one that is not empty. *)
Definition positive_extent (r : Rect) : Prop := (x0 r < x1 r)%Q ∧ (y0 r < y1 r)%Q.

Definition corners (r : Rect) : list (Q * Q) :=
  [(x0 r, y0 r); (x1 r, y0 r); (x0 r, y1 r); (x1 r, y1 r)].

Definition point_in (r : Rect) (p : Q * Q) : Prop :=
  (x0 r <= p.1)%Q ∧ (p.1 <= x1 r)%Q ∧ (y0 r <= p.2)%Q ∧ (p.2 <= y1 r)%Q.

(** ** The spatial index ([rtree.index.Index])

    Modelled from the spec: the R-tree is a library the repository imports.
    The index keeps the entries [(id, extent)] it was given, and a query
    returns the id of every entry whose extent intersects the query extent,
    extents being closed boxes (so touching boxes intersect).  The order in
    which a query reports its hits is the insertion order here.  The library
    refuses an extent whose minimum exceeds its maximum (a rectangle inverted
    by more than twice the threshold, or one a negative threshold shrinks
    past itself); the index here takes every extent, and is the library's on
    the extents the library takes. *)
Module rtree.

Definition Index : Type := list (nat * Rect).

Definition empty : Index := [].

Definition insert (idx : Index) (id : nat) (coordinates : Rect) : Index :=
  idx ++ [(id, coordinates)].

Definition overlap (a b : Rect) : bool :=
  Qle_bool (x0 a) (x1 b) && Qle_bool (x0 b) (x1 a)
  && Qle_bool (y0 a) (y1 b) && Qle_bool (y0 b) (y1 a).

Definition intersection (idx : Index) (coordinates : Rect) : list nat :=
  (filter (λ e, overlap e.2 coordinates = true) idx).*1.

End rtree.

(** ** [merge_bounding_boxes] *)

(** The loop [for bbox in rest: combined_bbox = combined_bbox | bbox]. *)
Fixpoint merge_loop (combined_bbox : Rect) (rest : list Rect) : Rect :=
  match rest with
  | [] => combined_bbox
  | bbox :: rest' => merge_loop (rect_or combined_bbox bbox) rest'
  end.

(** [None] is Python's [None]. *)
Definition merge_bounding_boxes (bboxes : list Rect) : option Rect :=
  if decide (length bboxes = 0) then None
  else first ← bboxes !! 0; Some (merge_loop first (drop 1 bboxes)).

(** ** [group_bounding_boxes] *)

(** [rect + (-threshold, -threshold, threshold, threshold)] *)
Definition expanded (rect : Rect) (threshold : Q) : Rect :=
  rect_add rect ((- threshold)%Q, (- threshold)%Q, threshold, threshold).

(** First loop: every rectangle goes into the index under its position. *)
Definition build_index (bboxes : list Rect) (threshold : Q) : rtree.Index :=
  foldl (λ idx '(i, rect), rtree.insert idx i (expanded rect threshold))
        rtree.empty (enumerate bboxes).

(** [adj_list[i].append(j)] on a [defaultdict(list)]. *)
Definition adj_append (adj_list : gmap nat (list nat)) (i j : nat)
    : gmap nat (list nat) :=
  <[i := adj_list !!! i ++ [j]]> adj_list.

(** Second loop: the adjacency lists. *)
Definition build_adj_list (idx : rtree.Index) (bboxes : list Rect) (threshold : Q)
    : gmap nat (list nat) :=
  foldl (λ adj_list '(i, rect),
           foldl (λ adj j, if decide (i ≠ j) then adj_append adj i j else adj)
                 adj_list (rtree.intersection idx (expanded rect threshold)))
        ∅ (enumerate bboxes).

(** The nested function [dfs(node, component)].  The state is the list
    [visited] and the list [component]; each member is kept with its node, so
    [component] is the source's list of rectangles paired with the positions
    they were read from.  Reading [adj_list[node]] on a [defaultdict] also
    stores an empty list under a missing key, which no later read observes.
    [fuel] bounds the depth of the recursion; the interpreter's own limit on
    that depth is outside the model. *)
Fixpoint dfs (fuel : nat) (bboxes : list Rect) (adj_list : gmap nat (list nat))
    (node : nat) (st : list bool * list (nat * Rect))
    : result (list bool * list (nat * Rect)) :=
  match fuel with
  | O => Raise OutOfFuel
  | S fuel' =>
      visited ← list_store st.1 node true;
      rect ← list_index bboxes node;
      for_each (adj_list !!! node)
        (λ neighbor st',
           seen ← list_index st'.1 neighbor;
           if seen : bool then Ok st'
           else dfs fuel' bboxes adj_list neighbor st')
        (visited, st.2 ++ [(node, rect)])
  end.

(** The loop over [range(len(bboxes))] that seeds the components.  The
    recursion budget handed to [dfs] is the number of rectangles, which
    [dfs_returns] shows to be enough. *)
Definition find_components (bboxes : list Rect) (adj_list : gmap nat (list nat))
    : result (list (list (nat * Rect))) :=
  st ← for_each (seq 0 (length bboxes))
         (λ i st,
            seen ← list_index st.1 i;
            if seen : bool then Ok st
            else
              r ← dfs (length bboxes) bboxes adj_list i (st.1, []);
              Ok (r.1, st.2 ++ [r.2]))
         (replicate (length bboxes) false, []);
  Ok st.2.

(** The adjacency lists [group_bounding_boxes] builds with its two loops. *)
Definition adjacency (bboxes : list Rect) (threshold : Q) : gmap nat (list nat) :=
  let idx := build_index bboxes threshold in
  build_adj_list idx bboxes threshold.

(** The components of [group_bounding_boxes], before they are merged. *)
Definition components (bboxes : list Rect) (threshold : Q)
    : result (list (list (nat * Rect))) :=
  let adj_list := adjacency bboxes threshold in
  find_components bboxes adj_list.

(** A returned element is a rectangle or [None].  The parameter
    [max_drawings] of the source is not used by its body and is left out. *)
Definition group_bounding_boxes (bboxes : list Rect) (threshold : Q)
    : result (list (option Rect)) :=
  comps ← components bboxes threshold;
  Ok ((λ group, merge_bounding_boxes group.*2)
        <$> (comps : list (list (nat * Rect)))).

(** ** [process_large_drawing] *)

(** A drawing is a dictionary; the pipeline reads its entry ["rect"] only.
    [d_rect] is [d.get("rect")]: [None] when the key is missing. *)
Record Drawing : Type := mkDrawing { d_rect : option Rect }.

(** [[fitz.Rect(d["rect"]) for d in drawings if d.get("rect")]]: a drawing is
    kept when the entry is there and its truth value is true. *)
Definition drawing_bboxes (drawings : list Drawing) : list Rect :=
  omap (λ d, match d_rect d with
             | Some r => if rect_bool r then Some r else None
             | None => None
             end) drawings.

(** [l[lo:hi]] for [0 <= lo <= hi]. *)
Definition slice {A : Type} (l : list A) (lo hi : nat) : list A :=
  take (hi - lo) (drop lo l).

(** [a // b] on natural numbers. *)
Definition floordiv (a b : nat) : result nat :=
  if decide (b = 0) then Raise ZeroDivisionError else Ok (a `div` b).

(** A list handed to [group_bounding_boxes] must hold rectangles: the first
    loop evaluates [rect + (...)], a [TypeError] on [None]. *)
Definition expect_rects (l : list (option Rect)) : result (list Rect) :=
  mapM (λ o, match o with Some r => Ok r | None => Raise TypeError end) l.

(** [max_drawings] is a natural number here (a non-negative Python int). *)
Definition process_large_drawing (drawings : list Drawing) (max_drawings : nat)
    (threshold : Q) : result (list (option Rect)) :=
  let bboxes := drawing_bboxes drawings in
  if decide (length bboxes < max_drawings) then
    group_bounding_boxes bboxes threshold
  else
    q ← floordiv (length bboxes) max_drawings;
    let num_chunks := q + 1 in
    all_results ← for_each (seq 0 num_chunks)
      (λ chunk_index all_results,
         let chunk := slice bboxes (chunk_index * max_drawings)
                                   ((chunk_index + 1) * max_drawings) in
         results ← group_bounding_boxes chunk threshold;
         Ok (all_results ++ results))
      [];
    rects ← expect_rects all_results;
    group_bounding_boxes rects threshold.

(** ** Pages

    What the decoding collaborator gives for one page. *)

(** A text block of [page.get_text("dict")["blocks"]]: its type tag (0 for
    text) and its bounding box. *)
Record Block : Type := mkBlock { b_type : nat; b_bbox : Rect }.

Record Page : Type := mkPage {
  p_text : string;               (* page.get_text() *)
  p_images : list string;        (* doc.extract_image(xref)["image"] for
                                    each entry of page.get_images(full=True) *)
  p_rect : Rect;                 (* page.rect *)
  p_drawings : list Drawing;     (* page.get_drawings() *)
  p_blocks : list Block;         (* page.get_text("dict")["blocks"] *)
  p_render : Q → Rect → result string
                                 (* page.get_pixmap(matrix=fitz.Matrix(z, z),
                                    clip=r).tobytes("png") *)
}.

(** [r.width] and [r.height] of [fitz.Rect], which are never negative. *)
Definition rect_width (r : Rect) : Q := Qmax 0 (x1 r - x0 r).
Definition rect_height (r : Rect) : Q := Qmax 0 (y1 r - y0 r).

(** ** [find_surrounding_text] *)
Definition find_surrounding_text (page : Page) (group : Rect) (threshold : Q)
    : list Rect :=
  let text_blocks := p_blocks page in
  let expanded := expanded group threshold in
  omap (λ block,
          if decide (b_type block ≠ 0) then None
          else
            let block_rect := b_bbox block in
            if rect_intersects expanded block_rect then Some block_rect
            else None)
       text_blocks.

(** ** The size filter of [extract_vector] *)

(** [figure_bbox[2] - figure_bbox[0]] times [figure_bbox[3] - figure_bbox[1]] *)
Definition bbox_area (figure_bbox : Rect) : Q :=
  let width := (x1 figure_bbox - x0 figure_bbox)%Q in
  let height := (y1 figure_bbox - y0 figure_bbox)%Q in
  (width * height)%Q.

(** [area > min_size and area < max_size] *)
Definition size_filter (min_size max_size : Q) (figure_bbox : Rect) : bool :=
  let area := bbox_area figure_bbox in
  Qltb min_size area && Qltb area max_size.

(** The candidate rectangle: widened by the text blocks around it when
    there are any. *)
Definition figure_bbox_of (group : Rect) (surrounding : list Rect) : option Rect :=
  if decide (length surrounding ≠ 0) then merge_bounding_boxes ([group] ++ surrounding)
  else Some group.

(** ** Files and the orchestrators

    The output directory is the list of the writes done so far, oldest
    first: [(path, content)].  A computation threads it and may raise; what
    was written before an exception stays written. *)

Definition FS : Type := list (string * string).

Definition io (A : Type) : Type := FS → FS * result A.

#[global] Instance io_ret : MRet io := λ A a fs, (fs, Ok a).
#[global] Instance io_bind : MBind io :=
  λ A B f m fs,
    match m fs with
    | (fs', Ok a) => f a fs'
    | (fs', Raise e) => (fs', Raise e)
    end.

Definition lift {A : Type} (r : result A) : io A := λ fs, (fs, r).

(** [with open(path, "w") as f: f.write(data)].  A write that the file
    system refuses is outside the model. *)
Definition write_file (path data : string) : io () :=
  λ fs, (fs ++ [(path, data)], Ok ()).

Fixpoint io_for_each {A S : Type} (l : list A) (body : A → S → io S) (s : S)
    : io S :=
  match l with
  | [] => mret s
  | x :: l' => s' ← body x s; io_for_each l' body s'
  end.

(** [os.path.join(a, b)] for a relative [b]. *)
Definition path_join (a b : string) : string :=
  if decide (a = "") then b
  else match String.get (String.length a - 1) a with
       | Some c => if decide (c = "/"%char) then a +:+ b else a +:+ "/" +:+ b
       | _ => a +:+ "/" +:+ b
       end.

(** [str.strip()]: the characters (code points below 256) for which
    [str.isspace()] holds are removed from both ends. *)
Definition isspace (c : ascii) : bool :=
  let n := nat_of_ascii c in
  bool_decide ((9 ≤ n ∧ n ≤ 13) ∨ (28 ≤ n ∧ n ≤ 32) ∨ n = 133 ∨ n = 160).

Fixpoint lstrip (s : string) : string :=
  match s with
  | EmptyString => EmptyString
  | String c s' => if isspace c then lstrip s' else s
  end.

Definition strip (s : string) : string :=
  String.rev (lstrip (String.rev (lstrip s))).

(** [" ".join([a, b])] *)
Definition join2 (sep a b : string) : string := a +:+ sep +:+ b.

Section Orchestrators.

(** [hashlib.md5(data).hexdigest()] *)
Variable md5_hexdigest : string → string.

Definition MAX_DRAWINGS : nat := 1000.
Definition MIN_SIZE : Q := 5 # 100.
Definition MAX_SIZE : Q := 30 # 100.
Definition THRESHOLD : Q := 5.
Definition ZOOM : Q := 4.

(** [f"page{page_num}_{kind}{index}_hash{digest[:8]}.png"] *)
Definition artifact_name (kind : string) (page_num index : nat) (digest : string)
    : string :=
  "page" +:+ pretty page_num +:+ "_" +:+ kind +:+ pretty index
         +:+ "_hash" +:+ substring 0 8 digest +:+ ".png".

Definition extract_images (page : Page) (page_num : nat) (images_dir : string)
    : io bool :=
  io_for_each (enumerate (p_images page))
    (λ '(img_index, image_bytes) _,
       let image_hash := md5_hexdigest image_bytes in
       let image_name := artifact_name "img" page_num img_index image_hash in
       let image_path := path_join images_dir image_name in
       write_file image_path image_bytes)
    ();;
  mret true.

(** One turn of the loop over [enumerate(grouped)]. *)
Definition figure_step (page : Page) (page_num : nat) (images_dir : string)
    (min_size max_size : Q) (group_num : nat) (group : option Rect)
    : io () :=
  match group with
  | None => lift (Raise TypeError)  (* [group + (...)] in find_surrounding_text *)
  | Some group =>
      let surrounding := find_surrounding_text page group THRESHOLD in
      match figure_bbox_of group surrounding with
      | None => lift (Raise TypeError)  (* [figure_bbox[2]] *)
      | Some figure_bbox =>
          if size_filter min_size max_size figure_bbox then
            figure_bytes ← lift (p_render page ZOOM figure_bbox);
            let figure_hash := md5_hexdigest figure_bytes in
            let figure_name := artifact_name "fig" page_num group_num figure_hash in
            let figure_path := path_join images_dir figure_name in
            write_file figure_path figure_bytes
          else mret ()
      end
  end.

(** The loop [for group_num, group in enumerate(grouped)] over the pairs it
    is given. *)
Definition figures_loop (page : Page) (page_num : nat) (images_dir : string)
    (min_size max_size : Q) (items : list (nat * option Rect)) : io () :=
  io_for_each items
    (λ '(group_num, group) _,
       figure_step page page_num images_dir min_size max_size group_num group)
    ().

Definition page_size (page : Page) : Q :=
  (rect_width (p_rect page) * rect_height (p_rect page))%Q.

Definition extract_vector (page : Page) (page_num : nat) (images_dir : string)
    : io bool :=
  let page_size := page_size page in
  let min_size := (page_size * MIN_SIZE)%Q in
  let max_size := (page_size * MAX_SIZE)%Q in
  let drawings := p_drawings page in
  grouped ← lift (process_large_drawing drawings MAX_DRAWINGS THRESHOLD);
  figures_loop page page_num images_dir min_size max_size (enumerate grouped);;
  mret true.

(** [doc] is the opened document: its pages in order. *)
Definition extract_pdf_ragntex (doc : list Page) (article_dir : string)
    : io bool :=
  let images_dir := path_join article_dir "ragntex" in
  text ← io_for_each (enumerate doc)
    (λ '(page_num, page) text,
       let text := join2 " " text (strip (p_text page)) in
       extract_images page page_num images_dir;;
       extract_vector page page_num images_dir;;
       mret text)
    "";
  let text_path := path_join article_dir "ragntex.txt" in
  write_file text_path text;;
  mret true.

End Orchestrators.

(** ** The specification's side of the comparisons

    These definitions follow the words of the specification; the theorems
    below compare them with the code above. *)

(** The edge-to-edge gap of two rectangles along an axis: the distance
    between the facing edges, negative or zero when the projections overlap. *)
Definition gap_x (a b : Rect) : Q := Qmax (x0 a - x1 b) (x0 b - x1 a).
Definition gap_y (a b : Rect) : Q := Qmax (y0 a - y1 b) (y0 b - y1 a).

(** "The gap between them, measured edge-to-edge on any axis, is less than
    T". *)
Definition gap_below (T : Q) (a b : Rect) : Prop :=
  (gap_x a b < T)%Q ∧ (gap_y a b < T)%Q.

(** What the two loops of the code decide: the gap is at most [2 * T] on
    both axes. *)
Definition gap_within (T : Q) (a b : Rect) : Prop :=
  (gap_x a b <= 2 * T)%Q ∧ (gap_y a b <= 2 * T)%Q.

(** "Inverted/degenerate extent": left > right or top > bottom, or zero
    extent. *)
Definition inverted_or_degenerate (r : Rect) : Prop :=
  (x1 r <= x0 r)%Q ∨ (y1 r <= y0 r)%Q.

(** "Pages joined by a single separator": nothing before the first page's
    text, nothing after the last. *)
Definition joined_text (sep : string) (texts : list string) : string :=
  String.concat sep texts.

(** The text after the loop over the pages: the separator, then the
    stripped text, for each page in turn. *)
Definition accumulated_text (sep : string) (doc : list Page) : string :=
  foldr (λ page rest, sep +:+ strip (p_text page) +:+ rest) "" doc.

(** "That candidate is skipped (no artifact produced), page processing
    continues with remaining candidates": a step whose failure is dropped. *)
Definition skip_on_failure (step : io ()) : io () :=
  λ fs, match step fs with
        | (fs', Ok u) => (fs', Ok u)
        | (_, Raise _) => (fs, Ok ())
        end.

Definition extract_vector_recovering (md5_hexdigest : string → string)
    (page : Page) (page_num : nat) (images_dir : string) : io bool :=
  let page_size := page_size page in
  let min_size := (page_size * MIN_SIZE)%Q in
  let max_size := (page_size * MAX_SIZE)%Q in
  grouped ← lift (process_large_drawing (p_drawings page) MAX_DRAWINGS THRESHOLD);
  io_for_each (enumerate grouped)
    (λ '(group_num, group) _,
       skip_on_failure
         (figure_step md5_hexdigest page page_num images_dir min_size max_size
                      group_num group))
    ();;
  mret true.

(** ** Vocabulary of the traversal's invariants *)

(** [visited[k]] is [True]. *)
Definition seen (visited : list bool) (k : nat) : Prop := visited !! k = Some true.

(** The number of entries of [visited] that are still [False]. *)
Definition unseen (visited : list bool) : nat :=
  length (filter (λ b, b = false) visited).

(** The positions a component was read from. *)
Definition nodes (component : list (nat * Rect)) : list nat := component.*1.

(** [j] is in the adjacency list of [i]. *)
Definition edge (adj_list : gmap nat (list nat)) (i j : nat) : Prop :=
  j ∈ adj_list !!! i.

Section TraversalVocabulary.

Variable bboxes : list Rect.
Variable adj_list : gmap nat (list nat).

(** What a traversal adds: [v'] is [v] with exactly the nodes of [new]
    marked, each of them unmarked before and read from [bboxes]. *)
Definition grows (v v' : list bool) (new : list (nat * Rect)) : Prop :=
  length v' = length v
  ∧ unseen v' ≤ unseen v
  ∧ NoDup (nodes new)
  ∧ (∀ k, seen v' k ↔ seen v k ∨ k ∈ nodes new)
  ∧ (∀ k, k ∈ nodes new → v !! k = Some false)
  ∧ (∀ k r, (k, r) ∈ new → bboxes !! k = Some r).

(** Every neighbour of a node of [new] is marked in [v]. *)
Definition settled (new : list (nat * Rect)) (v : list bool) : Prop :=
  ∀ k j, k ∈ nodes new → edge adj_list k j → seen v j.

(** The contract of [dfs] at a given recursion budget: called on an unmarked
    node with at most [fuel] unmarked entries, it returns. *)
Definition dfs_contract (fuel : nat) : Prop :=
  ∀ node v comp,
    length v = length bboxes → v !! node = Some false → unseen v ≤ fuel →
    ∃ v' new,
      dfs fuel bboxes adj_list node (v, comp) = Ok (v', comp ++ new)
      ∧ grows v v' new ∧ settled new v'
      ∧ node ∈ nodes new
      ∧ ∀ k, k ∈ nodes new → rtc (edge adj_list) node k.

(** Every neighbour of a marked node is marked. *)
Definition closed (v : list bool) : Prop :=
  ∀ k j, seen v k → edge adj_list k j → seen v j.

(** A finished component: its nodes are reachable from one of them, it is
    closed under the edges, and its rectangles are those of its nodes. *)
Definition component_ok (c : list (nat * Rect)) : Prop :=
  (∃ seed, seed ∈ nodes c ∧ ∀ k, k ∈ nodes c → rtc (edge adj_list) seed k)
  ∧ (∀ k j, k ∈ nodes c → edge adj_list k j → j ∈ nodes c)
  ∧ (∀ k r, (k, r) ∈ c → bboxes !! k = Some r).

End TraversalVocabulary.

(** ** Inputs used by the examples *)

(** The four unit squares of the spec's scenario. *)
Definition unit_squares : list Rect :=
  [mkRect 0 0 1 1; mkRect 1 0 2 1; mkRect 0 1 1 2; mkRect 10 10 11 11].

(** Two strokes forming an L, and a small mark inside the L's bounding box. *)
Definition L_shape : list Drawing :=
  [mkDrawing (Some (mkRect 0 0 100 1)); mkDrawing (Some (mkRect 0 0 1 100));
   mkDrawing (Some (mkRect 50 50 51 51))].

(** A 100 x 100 page with two separate 30 x 30 drawings and no text block. *)
Definition two_figures (render : Rect → result string) : Page :=
  mkPage "a" [] (mkRect 0 0 100 100)
         [mkDrawing (Some (mkRect 0 0 30 30)); mkDrawing (Some (mkRect 50 50 80 80))]
         [] (λ _ r, render r).

(** A renderer that fails on the region at the page's origin. *)
Definition first_fails (r : Rect) : result string :=
  if Qeq_bool (x0 r) 0 then Raise LibraryError else Ok "png".

(** A stand-in for the digest: any function of the bytes will do. *)
Definition constant_digest (data : string) : string := "0123456789abcdef".

(** A document of one page whose text is ["a"] and a newline, with nothing
    else to extract. *)
Definition one_page : list Page :=
  [mkPage (String "a" (String (ascii_of_nat 10) EmptyString)) []
          (mkRect 0 0 100 100) [] [] (λ _ _, Ok "")].

(** ** [are_bounding_boxes_close]

    The function is defined in the module and called nowhere in it. *)
Definition are_bounding_boxes_close (bbox1 bbox2 : Rect) (threshold : Q) : bool :=
  let '(left1, top1, right1, bottom1) := (x0 bbox1, y0 bbox1, x1 bbox1, y1 bbox1) in
  let '(left2, top2, right2, bottom2) := (x0 bbox2, y0 bbox2, x1 bbox2, y1 bbox2) in
  Qltb (Qabs (left1 - right2)) threshold
  || Qltb (Qabs (right1 - left2)) threshold
  || Qltb (Qabs (top1 - bottom2)) threshold
  || Qltb (Qabs (bottom1 - top2)) threshold.

(** ** Further vocabulary and inputs *)

(** The same rectangle up to the representation of its coordinates. *)
Definition rect_equiv (a b : Rect) : Prop :=
  (x0 a == x0 b)%Q ∧ (y0 a == y0 b)%Q ∧ (x1 a == x1 b)%Q ∧ (y1 a == y1 b)%Q.

(** Two unit squares 3 apart. *)
Definition far_apart : list Rect := [mkRect 0 0 1 1; mkRect 4 0 5 1].

(** A page with one drawing, a text block just below it, an image block at
    the same place and a text block far below. *)
Definition captioned : Page :=
  mkPage "" [] (mkRect 0 0 100 100) [mkDrawing (Some (mkRect 10 10 40 40))]
         [mkBlock 0 (mkRect 10 42 40 46); mkBlock 1 (mkRect 10 42 40 46);
          mkBlock 0 (mkRect 10 80 40 84)]
         (λ _ _, Ok "png").

(** A file written by the loop over the candidates of a page: the rendering
    of a region that passed the size filter, under the name made from the
    page, a candidate number and the digest of the bytes. *)
Definition figure_write (md5_hexdigest : string → string) (page : Page)
    (page_num : nat) (images_dir : string) (min_size max_size : Q)
    (w : string * string) : Prop :=
  ∃ k figure_bbox,
    size_filter min_size max_size figure_bbox = true
    ∧ p_render page ZOOM figure_bbox = Ok w.2
    ∧ w.1 = path_join images_dir (artifact_name "fig" page_num k (md5_hexdigest w.2)).

(** A page with two embedded images and nothing else. *)
Definition two_images : Page :=
  mkPage "a" ["gif"; "jpeg"] (mkRect 0 0 100 100) [] [] (λ _ _, Ok "png").

(** The decimal digits, and the strings made of them. *)
Definition is_digit (c : ascii) : bool :=
  bool_decide (48 ≤ nat_of_ascii c ∧ nat_of_ascii c ≤ 57).

Fixpoint all_digits (s : string) : bool :=
  match s with
  | EmptyString => true
  | String c s' => is_digit c && all_digits s'
  end.

(** * Properties *)

(** ** Comparisons, monadic steps and lists *)

Lemma Qltb_lt (a b : Q) : Qltb a b = true ↔ (a < b)%Q.
Proof.
  unfold Qltb. rewrite negb_true_iff, <- not_true_iff_false, Qle_bool_iff.
  split; [apply Qnot_le_lt | apply Qlt_not_le].
Qed.

Lemma list_index_Some {A : Type} (l : list A) (i : nat) (x : A) :
  l !! i = Some x → list_index l i = Ok x.
Proof. unfold list_index. intros ->. reflexivity. Qed.

Lemma list_store_lt {A : Type} (l : list A) (i : nat) (x : A) :
  i < length l → list_store l i x = Ok (<[i:=x]> l).
Proof. unfold list_store. intros H. destruct (decide _); [reflexivity | contradiction]. Qed.

Ltac run_bind := cbn [mbind result_bind fst snd].

Lemma enumerate_snoc {A : Type} (l : list A) (x : A) :
  enumerate (l ++ [x]) = enumerate l ++ [(length l, x)].
Proof. unfold enumerate. rewrite imap_app. simpl. rewrite Nat.add_0_r. reflexivity. Qed.

Lemma enumerate_app {A : Type} (l1 l2 : list A) :
  enumerate (l1 ++ l2) = enumerate l1 ++ imap (λ n, pair (length l1 + n)) l2.
Proof. apply imap_app. Qed.

Lemma enumerate_snd {A : Type} (l : list A) : (enumerate l).*2 = l.
Proof.
  unfold enumerate. apply list_eq. intros i.
  rewrite list_lookup_fmap, list_lookup_imap. destruct (l !! i); reflexivity.
Qed.

Lemma elem_of_concat {A : Type} (ls : list (list A)) (x : A) :
  x ∈ concat ls ↔ ∃ l, l ∈ ls ∧ x ∈ l.
Proof.
  induction ls as [|l ls IH]; simpl.
  - split; [intros H; inversion H | intros (l & H & _); inversion H].
  - rewrite elem_of_app, IH. split.
    + intros [H | (l' & H1 & H2)];
        [exists l; split; [left|auto] | exists l'; split; [right; auto|auto]].
    + intros (l' & H1 & H2).
      apply elem_of_cons in H1 as [->|H1]; [left; auto | right; eauto].
Qed.

Lemma NoDup_concat_unique {A : Type} (ls : list (list A)) (i j : nat)
    (a b : list A) (x : A) :
  NoDup (concat ls) → ls !! i = Some a → ls !! j = Some b → x ∈ a → x ∈ b → i = j.
Proof.
  revert i j. induction ls as [|l ls IH]; intros i j Hnd Hi Hj Ha Hb; [discriminate|].
  simpl in Hnd. apply NoDup_app in Hnd as (Hl & Hdis & Hrest).
  destruct i as [|i], j as [|j]; simpl in *.
  - reflexivity.
  - injection Hi as ->. exfalso. apply (Hdis x Ha).
    apply elem_of_concat. exists b. split; [eapply list_elem_of_lookup_2; eauto | exact Hb].
  - injection Hj as ->. exfalso. apply (Hdis x Hb).
    apply elem_of_concat. exists a. split; [eapply list_elem_of_lookup_2; eauto | exact Ha].
  - f_equal. eapply IH; eauto.
Qed.

Lemma NoDup_concat_part {A : Type} (ls : list (list A)) (l : list A) :
  NoDup (concat ls) → l ∈ ls → NoDup l.
Proof.
  induction ls as [|l' ls IH]; intros Hnd Hl; [inversion Hl|].
  simpl in Hnd. apply NoDup_app in Hnd as (Hl' & _ & Hrest).
  apply elem_of_cons in Hl as [->|Hl]; auto.
Qed.

Lemma length_concat_sum {A : Type} (ls : list (list A)) :
  length (concat ls) = sum_list (length <$> ls).
Proof.
  induction ls as [|l ls IH]; simpl; [reflexivity | rewrite length_app, IH; reflexivity].
Qed.

Lemma string_app_nil_r (s : string) : s +:+ "" = s.
Proof.
  induction s as [|c s IH]; [reflexivity|].
  change (String c (s +:+ "") = String c s). rewrite IH. reflexivity.
Qed.

Lemma string_app_assoc (s t u : string) : (s +:+ t) +:+ u = s +:+ (t +:+ u).
Proof.
  induction s as [|c s IH]; [reflexivity|].
  change (String c ((s +:+ t) +:+ u) = String c (s +:+ (t +:+ u))).
  rewrite IH. reflexivity.
Qed.

(** ** Union of rectangles and [merge_bounding_boxes] *)

Lemma encloses_refl (a : Rect) : encloses a a.
Proof. unfold encloses. repeat split; apply Qle_refl. Qed.

Lemma encloses_trans (a b c : Rect) : encloses a b → encloses b c → encloses a c.
Proof.
  unfold encloses. intros (?&?&?&?) (?&?&?&?).
  repeat split; eapply Qle_trans; eauto.
Qed.

Lemma rect_is_empty_false (r : Rect) : rect_is_empty r = false ↔ positive_extent r.
Proof.
  unfold rect_is_empty, positive_extent.
  rewrite orb_false_iff, <- !not_true_iff_false, !Qle_bool_iff.
  split; intros [H1 H2]; split; lra.
Qed.

Lemma rect_is_empty_true (r : Rect) : rect_is_empty r = true ↔ ¬ positive_extent r.
Proof.
  rewrite <- rect_is_empty_false. destruct (rect_is_empty r); split; congruence.
Qed.

Lemma positive_extent_valid (r : Rect) : positive_extent r → valid r.
Proof. unfold positive_extent, valid. intros [? ?]. split; lra. Qed.

Lemma encloses_positive (a m : Rect) :
  encloses a m → positive_extent m → positive_extent a.
Proof. unfold encloses, positive_extent. intros (?&?&?&?) [? ?]. split; lra. Qed.

(** On two rectangles of positive width and height the operator is the
    smallest enclosing rectangle. *)
Lemma rect_or_positive (a b : Rect) :
  positive_extent a → positive_extent b →
  rect_or a b = mkRect (Qmin (x0 a) (x0 b)) (Qmin (y0 a) (y0 b))
                       (Qmax (x1 a) (x1 b)) (Qmax (y1 a) (y1 b)).
Proof.
  intros Ha Hb. apply rect_is_empty_false in Ha, Hb. unfold rect_or.
  rewrite Ha, Hb. reflexivity.
Qed.

Lemma rect_or_empty_r (a b : Rect) : ¬ positive_extent b → rect_or a b = a.
Proof. intros Hb. apply rect_is_empty_true in Hb. unfold rect_or. rewrite Hb. reflexivity. Qed.

Lemma rect_or_empty_l (a b : Rect) :
  ¬ positive_extent a → positive_extent b → rect_or a b = b.
Proof.
  intros Ha Hb. apply rect_is_empty_true in Ha. apply rect_is_empty_false in Hb.
  unfold rect_or. rewrite Ha, Hb. reflexivity.
Qed.

(** What the left operand encloses of positive extent, the union encloses. *)
Lemma rect_or_keeps (acc b m : Rect) :
  positive_extent m → encloses acc m → encloses (rect_or acc b) m.
Proof.
  intros Hm He. pose proof (encloses_positive _ _ He Hm) as Hacc.
  destruct (rect_is_empty b) eqn:Eb.
  - apply rect_is_empty_true in Eb. rewrite rect_or_empty_r by exact Eb. exact He.
  - apply rect_is_empty_false in Eb. rewrite rect_or_positive by assumption.
    destruct He as (?&?&?&?). unfold encloses; simpl.
    pose proof (Q.le_min_l (x0 acc) (x0 b)). pose proof (Q.le_min_l (y0 acc) (y0 b)).
    pose proof (Q.le_max_l (x1 acc) (x1 b)). pose proof (Q.le_max_l (y1 acc) (y1 b)).
    repeat split; lra.
Qed.

(** What the right operand encloses of positive extent, the union encloses. *)
Lemma rect_or_takes (acc b m : Rect) :
  positive_extent m → encloses b m → encloses (rect_or acc b) m.
Proof.
  intros Hm He. pose proof (encloses_positive _ _ He Hm) as Hb.
  destruct (rect_is_empty acc) eqn:Ea.
  - apply rect_is_empty_true in Ea. rewrite rect_or_empty_l by assumption. exact He.
  - apply rect_is_empty_false in Ea. rewrite rect_or_positive by assumption.
    destruct He as (?&?&?&?). unfold encloses; simpl.
    pose proof (Q.le_min_r (x0 acc) (x0 b)). pose proof (Q.le_min_r (y0 acc) (y0 b)).
    pose proof (Q.le_max_r (x1 acc) (x1 b)). pose proof (Q.le_max_r (y1 acc) (y1 b)).
    repeat split; lra.
Qed.

Lemma merge_loop_foldl (first : Rect) (rest : list Rect) :
  merge_loop first rest = foldl rect_or first rest.
Proof. revert first. induction rest as [|b rest IH]; intros first; simpl; auto. Qed.

Lemma merge_loop_keeps (rest : list Rect) (acc m : Rect) :
  positive_extent m → encloses acc m → encloses (merge_loop acc rest) m.
Proof.
  intros Hm. revert acc. induction rest as [|b rest IH]; intros acc He; simpl.
  - exact He.
  - apply IH, rect_or_keeps; assumption.
Qed.

Lemma merge_loop_takes (rest : list Rect) (acc b m : Rect) :
  positive_extent m → b ∈ rest → encloses b m → encloses (merge_loop acc rest) m.
Proof.
  intros Hm. revert acc. induction rest as [|b' rest IH]; intros acc Hb He; simpl.
  - inversion Hb.
  - apply elem_of_cons in Hb as [<- | Hb].
    + apply merge_loop_keeps, rect_or_takes; assumption.
    + apply IH; assumption.
Qed.

Lemma merge_cons (first : Rect) (rest : list Rect) :
  merge_bounding_boxes (first :: rest) = Some (merge_loop first rest).
Proof. reflexivity. Qed.

(** A region of positive extent inside one of the rectangles is inside
    what they are merged to. *)
Lemma merge_covers (group : list Rect) (b m : Rect) :
  positive_extent m → b ∈ group → encloses b m →
  ∃ r, merge_bounding_boxes group = Some r ∧ encloses r m.
Proof.
  intros Hm Hb He. destruct group as [|first rest]; [inversion Hb|].
  rewrite merge_cons. eexists; split; [reflexivity|].
  apply elem_of_cons in Hb as [<- | Hb].
  - apply merge_loop_keeps; assumption.
  - eapply merge_loop_takes; eassumption.
Qed.

Lemma merge_encloses (group : list Rect) (m : Rect) :
  positive_extent m → m ∈ group →
  ∃ r, merge_bounding_boxes group = Some r ∧ encloses r m.
Proof. intros Hm Hin. eapply merge_covers; [exact Hm | exact Hin | apply encloses_refl]. Qed.

Lemma encloses_corners (r m : Rect) :
  encloses r m → valid m → ∀ p, p ∈ corners m → point_in r p.
Proof.
  unfold encloses, valid, corners, point_in.
  intros (?&?&?&?) (?&?) p Hp.
  repeat (apply elem_of_cons in Hp as [-> | Hp]); simpl;
    [| | | | inversion Hp]; repeat split; lra.
Qed.

(** C10.  [merge_bounding_boxes] returns [None] on the empty list; on a
    non-empty list it returns the left fold of the union operator over the
    tail, started at the first element; so it returns a rectangle exactly
    when its argument is non-empty. *)
Theorem merge_bounding_boxes_fold :
  merge_bounding_boxes [] = None
  ∧ (∀ first rest,
       merge_bounding_boxes (first :: rest) = Some (foldl rect_or first rest))
  ∧ (∀ bboxes, is_Some (merge_bounding_boxes bboxes) ↔ bboxes ≠ []).
Proof.
  split; [reflexivity|]. split.
  - intros first rest. rewrite merge_cons, merge_loop_foldl. reflexivity.
  - intros [|first rest]; simpl.
    + split; [intros [r Hr]; discriminate | congruence].
    + rewrite merge_cons. split; [discriminate | eauto].
Qed.

(** ** The size filter *)

Lemma size_filter_iff (min_size max_size : Q) (figure_bbox : Rect) :
  size_filter min_size max_size figure_bbox = true
  ↔ (min_size < bbox_area figure_bbox)%Q ∧ (bbox_area figure_bbox < max_size)%Q.
Proof.
  unfold size_filter. simpl. rewrite andb_true_iff, !Qltb_lt. reflexivity.
Qed.

(** C4.  With the bounds [extract_vector] computes from the page area and
    the two fractions, a candidate passes the filter iff its area is strictly
    between [min_fraction * page_area] and [max_fraction * page_area]; an
    area equal to either bound is rejected.  For page area 1000 and the
    fractions 0.05 and 0.30, a 7 x 7 candidate (area 49) is rejected, a
    3 x 17 one (area 51) is accepted and a 15 x 20 one (area 300) is
    rejected. *)
Theorem size_filter_exclusive_bounds :
  (∀ (page_area min_fraction max_fraction : Q) (candidate : Rect),
     let accepted :=
       size_filter (page_area * min_fraction) (page_area * max_fraction) candidate in
     (accepted = true ↔
        (min_fraction * page_area < bbox_area candidate)%Q
        ∧ (bbox_area candidate < max_fraction * page_area)%Q)
     ∧ ((bbox_area candidate == min_fraction * page_area)%Q → accepted = false)
     ∧ ((bbox_area candidate == max_fraction * page_area)%Q → accepted = false))
  ∧ (bbox_area (mkRect 0 0 7 7) == 49)%Q
  ∧ size_filter (1000 * MIN_SIZE) (1000 * MAX_SIZE) (mkRect 0 0 7 7) = false
  ∧ (bbox_area (mkRect 0 0 3 17) == 51)%Q
  ∧ size_filter (1000 * MIN_SIZE) (1000 * MAX_SIZE) (mkRect 0 0 3 17) = true
  ∧ (bbox_area (mkRect 0 0 15 20) == 300)%Q
  ∧ size_filter (1000 * MIN_SIZE) (1000 * MAX_SIZE) (mkRect 0 0 15 20) = false.
Proof.
  split; [|repeat split; reflexivity].
  intros page_area min_fraction max_fraction candidate accepted. subst accepted.
  split; [|split].
  - rewrite size_filter_iff. split; intros [H1 H2]; split; lra.
  - intros Heq. apply not_true_iff_false. rewrite size_filter_iff.
    intros [H1 _]. lra.
  - intros Heq. apply not_true_iff_false. rewrite size_filter_iff.
    intros [_ H2]. lra.
Qed.

(** ** The drawings handed to grouping *)

Lemma rect_bool_false (r : Rect) :
  rect_bool r = false ↔ (x0 r == 0 ∧ y0 r == 0 ∧ x1 r == 0 ∧ y1 r == 0)%Q.
Proof.
  unfold rect_bool. rewrite negb_false_iff, andb_true_iff, !Qeq_bool_iff.
  destruct r as [a b c d]; simpl.
  split.
  - intros [H1 H2].
    pose proof (Q.le_max_l (Qmax a b) (Qmax c d)).
    pose proof (Q.le_max_r (Qmax a b) (Qmax c d)).
    pose proof (Q.le_max_l a b). pose proof (Q.le_max_r a b).
    pose proof (Q.le_max_l c d). pose proof (Q.le_max_r c d).
    pose proof (Q.le_min_l (Qmin a b) (Qmin c d)).
    pose proof (Q.le_min_r (Qmin a b) (Qmin c d)).
    pose proof (Q.le_min_l a b). pose proof (Q.le_min_r a b).
    pose proof (Q.le_min_l c d). pose proof (Q.le_min_r c d).
    repeat split; lra.
  - intros (Ha & Hb & Hc & Hd).
    assert (Hhi : (Qmax (Qmax a b) (Qmax c d) == 0)%Q)
      by (rewrite Ha, Hb, Hc, Hd; reflexivity).
    assert (Hlo : (Qmin (Qmin a b) (Qmin c d) == 0)%Q)
      by (rewrite Ha, Hb, Hc, Hd; reflexivity).
    split; lra.
Qed.

(** C8 (amended).  The rectangles handed to grouping are those of the
    drawings that have a ["rect"] entry other than the all-zero rectangle:
    nothing else is excluded before the proximity graph is built. *)
Theorem drawing_bboxes_keeps (drawings : list Drawing) (r : Rect) :
  r ∈ drawing_bboxes drawings
  ↔ (∃ d, d ∈ drawings ∧ d_rect d = Some r)
    ∧ ¬ (x0 r == 0 ∧ y0 r == 0 ∧ x1 r == 0 ∧ y1 r == 0)%Q.
Proof.
  unfold drawing_bboxes. rewrite list_elem_of_omap. split.
  - intros (d & Hd & Hr). destruct (d_rect d) as [r'|] eqn:E; [|discriminate].
    destruct (rect_bool r') eqn:B; [|discriminate]. injection Hr as ->.
    split; [eauto|]. rewrite <- rect_bool_false. congruence.
  - intros [(d & Hd & E) Hnz]. exists d. split; [exact Hd|]. rewrite E.
    destruct (rect_bool r) eqn:B; [reflexivity|].
    apply rect_bool_false in B. contradiction.
Qed.

(** C8 as stated fails: an inverted rectangle and one of zero height are
    both handed to grouping. *)
Lemma inverted_rect_is_grouped :
  let inverted := mkRect 5 5 1 1 in
  let flat := mkRect 1 1 9 1 in
  let drawings := [mkDrawing (Some inverted); mkDrawing (Some flat)] in
  inverted_or_degenerate inverted ∧ inverted_or_degenerate flat
  ∧ drawing_bboxes drawings = [inverted; flat]
  ∧ process_large_drawing drawings 1000 5 = group_bounding_boxes [inverted; flat] 5.
Proof.
  simpl. split; [left; simpl; lra|]. split; [right; simpl; lra|].
  split; reflexivity.
Qed.

(** ** Chunking *)

(** C3 (amended).  When the number of rectangles is below [max_drawings],
    [process_large_drawing] returns what one call of [group_bounding_boxes]
    on the whole list returns. *)
Theorem below_chunk_size_groups_directly (drawings : list Drawing)
    (max_drawings : nat) (threshold : Q) :
  length (drawing_bboxes drawings) < max_drawings →
  process_large_drawing drawings max_drawings threshold
  = group_bounding_boxes (drawing_bboxes drawings) threshold.
Proof.
  intros Hlt. unfold process_large_drawing.
  destruct (decide _) as [_|Hn]; [reflexivity | contradiction].
Qed.

Lemma below_chunk_size_groups_directly_witness :
  length (drawing_bboxes L_shape) < 4
  ∧ process_large_drawing L_shape 4 5 = group_bounding_boxes (drawing_bboxes L_shape) 5.
Proof.
  split; [vm_compute; lia|].
  apply (below_chunk_size_groups_directly L_shape 4 5). vm_compute. lia.
Defined.

(** C3 as stated fails when the chunk size equals the length: the list is
    grouped as one chunk and the merged rectangles are grouped again, which
    joins the L with the mark inside its bounding box. *)
Lemma chunk_size_equal_to_length_differs :
  length (drawing_bboxes L_shape) = 3
  ∧ group_bounding_boxes (drawing_bboxes L_shape) 5
    = Ok [Some (mkRect 0 0 100 100); Some (mkRect 50 50 51 51)]
  ∧ process_large_drawing L_shape 3 5 = Ok [Some (mkRect 0 0 100 100)]
  ∧ process_large_drawing L_shape 3 5 ≠ group_bounding_boxes (drawing_bboxes L_shape) 5.
Proof.
  split; [reflexivity|]. split; [vm_compute; reflexivity|].
  split; [vm_compute; reflexivity|]. vm_compute. discriminate.
Qed.

(** ** The proximity graph *)


Lemma build_index_imap (bboxes : list Rect) (threshold : Q) :
  build_index bboxes threshold = imap (λ i rect, (i, expanded rect threshold)) bboxes.
Proof.
  unfold build_index. induction bboxes as [|rect bboxes IH] using rev_ind.
  - reflexivity.
  - rewrite enumerate_snoc, foldl_snoc, IH, imap_app. simpl.
    rewrite Nat.add_0_r. reflexivity.
Qed.

Lemma intersection_build_index (bboxes : list Rect) (threshold : Q) (q : Rect) (j : nat) :
  j ∈ rtree.intersection (build_index bboxes threshold) q
  ↔ ∃ b, bboxes !! j = Some b ∧ rtree.overlap (expanded b threshold) q = true.
Proof.
  unfold rtree.intersection. rewrite build_index_imap, list_elem_of_fmap. split.
  - intros ([id e] & -> & Hin). apply list_elem_of_filter in Hin as [Hov Hin].
    apply elem_of_lookup_imap in Hin as (i & b & [= -> ->] & Hb). simpl in *. eauto.
  - intros (b & Hb & Hov). exists (j, expanded b threshold). split; [reflexivity|].
    apply list_elem_of_filter. split; [exact Hov|].
    apply elem_of_lookup_imap. eauto.
Qed.

(** The inner loop appends to the list under [i] and touches no other key. *)
Lemma inner_loop_lookup (i : nat) (js : list nat) (adj : gmap nat (list nat)) (k : nat) :
  foldl (λ adj j, if decide (i ≠ j) then adj_append adj i j else adj) adj js !!! k
  = if decide (k = i) then adj !!! i ++ filter (λ j, i ≠ j) js else adj !!! k.
Proof.
  revert adj. induction js as [|j js IH]; intros adj; simpl.
  - destruct (decide (k = i)) as [->|]; [rewrite app_nil_r|]; reflexivity.
  - rewrite IH. destruct (decide (k = i)) as [->|Hk].
    + rewrite filter_cons. destruct (decide (i ≠ j)) as [Hij|Hij].
      * unfold adj_append. rewrite lookup_total_insert_eq, <- app_assoc. reflexivity.
      * reflexivity.
    + destruct (decide (i ≠ j)); [|reflexivity].
      unfold adj_append. rewrite lookup_total_insert_ne; [reflexivity | congruence].
Qed.

Lemma outer_loop_lookup (idx : rtree.Index) (threshold : Q) (l : list Rect) (k : nat) :
  build_adj_list idx l threshold !!! k
  = match l !! k with
    | Some rect => filter (λ j, k ≠ j) (rtree.intersection idx (expanded rect threshold))
    | None => []
    end.
Proof.
  unfold build_adj_list. induction l as [|rect l IH] using rev_ind.
  - simpl. rewrite lookup_total_empty. reflexivity.
  - rewrite enumerate_snoc, foldl_snoc, inner_loop_lookup.
    destruct (decide (k = length l)) as [->|Hk].
    + rewrite IH, lookup_ge_None_2 by lia. simpl.
      rewrite list_lookup_middle by reflexivity. reflexivity.
    + rewrite IH. destruct (decide (k < length l)) as [Hlt|Hge].
      * rewrite lookup_app_l by exact Hlt. reflexivity.
      * rewrite !lookup_ge_None_2; [reflexivity | | lia].
        rewrite length_app. simpl. lia.
Qed.

Lemma overlap_expanded (a b : Rect) (threshold : Q) :
  rtree.overlap (expanded b threshold) (expanded a threshold) = true
  ↔ gap_within threshold a b.
Proof.
  unfold rtree.overlap, gap_within, gap_x, gap_y, expanded, rect_add. simpl.
  rewrite !andb_true_iff, !Qle_bool_iff, !Q.max_lub_iff.
  split; intros H; decompose [and] H; repeat split; lra.
Qed.

Lemma edge_iff (bboxes : list Rect) (threshold : Q) (i j : nat) :
  j ∈ adjacency bboxes threshold !!! i
  ↔ ∃ a b, bboxes !! i = Some a ∧ bboxes !! j = Some b ∧ i ≠ j
           ∧ gap_within threshold a b.
Proof.
  unfold adjacency. rewrite outer_loop_lookup.
  destruct (bboxes !! i) as [a|] eqn:Ha.
  - rewrite list_elem_of_filter, intersection_build_index. split.
    + intros (Hij & b & Hb & Hov). exists a, b.
      rewrite <- overlap_expanded. auto.
    + intros (a' & b & [= <-] & Hb & Hij & Hgap). split; [exact Hij|].
      exists b. rewrite overlap_expanded. auto.
  - split; [intros H; inversion H | intros (a & b & [=] & _)].
Qed.

(** C1 (amended).  For a threshold [T >= 0], the two loops record [j] in
    the adjacency list of [i] iff [i] and [j] are distinct positions of the
    list and the edge-to-edge gap between the two original rectangles is at
    most twice the threshold on both axes (the expanded rectangles, as closed
    boxes, intersect). *)
Theorem adjacency_is_gap_within_twice_threshold (bboxes : list Rect)
    (threshold : Q) (i j : nat) :
  (0 <= threshold)%Q →
  j ∈ adjacency bboxes threshold !!! i
  ↔ ∃ a b, bboxes !! i = Some a ∧ bboxes !! j = Some b ∧ i ≠ j
           ∧ (gap_x a b <= 2 * threshold)%Q ∧ (gap_y a b <= 2 * threshold)%Q.
Proof. intros _. apply edge_iff. Qed.

Lemma adjacency_is_gap_within_twice_threshold_witness :
  (0 <= 2)%Q
  ∧ (1 ∈ adjacency far_apart 2 !!! 0
     ↔ ∃ a b, far_apart !! 0 = Some a ∧ far_apart !! 1 = Some b ∧ 0 ≠ 1
              ∧ (gap_x a b <= 2 * 2)%Q ∧ (gap_y a b <= 2 * 2)%Q).
Proof.
  split; [lra|]. apply (adjacency_is_gap_within_twice_threshold far_apart 2 0 1). lra.
Defined.

(** C1 as stated fails: with threshold 2, two unit squares 3 apart are
    adjacent although their gap is not below the threshold. *)
Lemma gap_between_T_and_2T_is_adjacent :
  let a := mkRect 0 0 1 1 in
  let b := mkRect 4 0 5 1 in
  adjacency [a; b] 2 !!! 0 = [1] ∧ adjacency [a; b] 2 !!! 1 = [0]
  ∧ (gap_x a b == 3)%Q ∧ ¬ gap_below 2 a b.
Proof.
  simpl. split; [vm_compute; reflexivity|]. split; [vm_compute; reflexivity|].
  split; [reflexivity|]. unfold gap_below. intros [H _]. vm_compute in H. discriminate.
Qed.

Lemma edge_sym (bboxes : list Rect) (threshold : Q) (i j : nat) :
  j ∈ adjacency bboxes threshold !!! i → i ∈ adjacency bboxes threshold !!! j.
Proof.
  rewrite !edge_iff. intros (a & b & Ha & Hb & Hij & Hx & Hy).
  exists b, a. repeat split; auto.
  - unfold gap_x in *. rewrite Q.max_comm. exact Hx.
  - unfold gap_y in *. rewrite Q.max_comm. exact Hy.
Qed.

Lemma edge_mono (bboxes : list Rect) (T1 T2 : Q) (i j : nat) :
  (T1 <= T2)%Q →
  j ∈ adjacency bboxes T1 !!! i → j ∈ adjacency bboxes T2 !!! i.
Proof.
  intros HT. rewrite !edge_iff. intros (a & b & Ha & Hb & Hij & Hx & Hy).
  exists a, b. repeat split; auto; lra.
Qed.

Lemma edge_lt (bboxes : list Rect) (threshold : Q) (i j : nat) :
  j ∈ adjacency bboxes threshold !!! i → i < length bboxes ∧ j < length bboxes.
Proof.
  rewrite edge_iff. intros (a & b & Ha & Hb & _).
  split; eapply lookup_lt_Some; eauto.
Qed.

(** ** The traversal *)

Lemma unseen_le_length (v : list bool) : unseen v ≤ length v.
Proof. apply length_filter. Qed.

Lemma unseen_store (v : list bool) (k : nat) :
  v !! k = Some false → S (unseen (<[k:=true]> v)) = unseen v.
Proof.
  unfold unseen. revert k. induction v as [|b v IH]; intros k Hk; [discriminate|].
  destruct k as [|k]; simpl in *.
  - injection Hk as ->. rewrite !filter_cons. simpl.
    destruct (decide (true = false)); [discriminate|].
    destruct (decide (false = false)); [reflexivity | contradiction].
  - rewrite !filter_cons. destruct (decide (b = false)); simpl; rewrite <- (IH k Hk); reflexivity.
Qed.

Lemma seen_store (v : list bool) (node k : nat) :
  node < length v → seen (<[node:=true]> v) k ↔ seen v k ∨ k = node.
Proof.
  intros Hlt. unfold seen. destruct (decide (k = node)) as [->|Hne].
  - rewrite list_lookup_insert_eq by exact Hlt. tauto.
  - rewrite list_lookup_insert_ne by congruence. tauto.
Qed.


Section Traversal.

Variable bboxes : list Rect.
Variable adj_list : gmap nat (list nat).
Hypothesis edge_in_range : ∀ i j, edge adj_list i j → j < length bboxes.

Lemma grows_nil (v : list bool) : grows bboxes v v [].
Proof.
  unfold grows, nodes. simpl. repeat split; auto; try tauto.
  - constructor.
  - intros [H|H]; [exact H | inversion H].
  - intros k H; inversion H.
  - intros k r H; inversion H.
Qed.

Lemma grows_seen (v v' : list bool) (new : list (nat * Rect)) (k : nat) :
  grows bboxes v v' new → seen v k → seen v' k.
Proof. intros (_&_&_&H&_) Hk. apply H. auto. Qed.

Lemma grows_trans (v1 v2 v3 : list bool) (new1 new2 : list (nat * Rect)) :
  grows bboxes v1 v2 new1 → grows bboxes v2 v3 new2 →
  grows bboxes v1 v3 (new1 ++ new2).
Proof.
  intros (Hl1 & Hu1 & Hd1 & Hs1 & Hf1 & Hm1) (Hl2 & Hu2 & Hd2 & Hs2 & Hf2 & Hm2).
  assert (Hfresh : ∀ k, k ∈ nodes new2 → v1 !! k = Some false).
  { intros k Hk. specialize (Hf2 k Hk).
    destruct (v1 !! k) as [[|]|] eqn:E.
    - assert (seen v2 k) as Hc by (apply Hs1; left; exact E).
      unfold seen in Hc. congruence.
    - reflexivity.
    - apply lookup_ge_None in E. apply lookup_lt_Some in Hf2. lia. }
  unfold grows, nodes in *. rewrite fmap_app. repeat split.
  - congruence.
  - lia.
  - apply NoDup_app. split; [exact Hd1|]. split; [|exact Hd2].
    intros k Hk1 Hk2. specialize (Hf2 k Hk2).
    assert (seen v2 k) as Hc by (apply Hs1; right; exact Hk1).
    unfold seen in Hc. congruence.
  - rewrite Hs2, Hs1, elem_of_app. tauto.
  - rewrite Hs2, Hs1, elem_of_app. tauto.
  - intros k Hk. apply elem_of_app in Hk as [Hk|Hk]; auto.
  - intros k r Hk. apply elem_of_app in Hk as [Hk|Hk]; eauto.
Qed.

Lemma settled_app (new1 new2 : list (nat * Rect)) (v2 v3 : list bool) :
  settled adj_list new1 v2 → grows bboxes v2 v3 new2 → settled adj_list new2 v3 →
  settled adj_list (new1 ++ new2) v3.
Proof.
  intros H1 Hg H2 k j Hk He. unfold nodes in Hk. rewrite fmap_app in Hk.
  apply elem_of_app in Hk as [Hk|Hk].
  - eapply grows_seen; [exact Hg|]. eapply H1; eauto.
  - eapply H2; eauto.
Qed.

(** The loop over the neighbours, for any list of nodes in range. *)
Lemma neighbours_loop (fuel : nat) :
  dfs_contract bboxes adj_list fuel →
  ∀ ns v comp,
    (∀ j, j ∈ ns → j < length bboxes) →
    length v = length bboxes → unseen v ≤ fuel →
    ∃ v' new,
      for_each ns
        (λ neighbor st',
           seen ← list_index st'.1 neighbor;
           if seen : bool then Ok st'
           else dfs fuel bboxes adj_list neighbor st')
        (v, comp) = Ok (v', comp ++ new)
      ∧ grows bboxes v v' new ∧ settled adj_list new v'
      ∧ (∀ j, j ∈ ns → seen v' j)
      ∧ ∀ k, k ∈ nodes new → ∃ j, j ∈ ns ∧ rtc (edge adj_list) j k.
Proof.
  intros Hdfs ns. induction ns as [|j ns IH]; intros v comp Hns Hlen Hfuel.
  - exists v, []. simpl. rewrite app_nil_r. split; [reflexivity|].
    split; [apply grows_nil|]. split; [intros k j Hk; inversion Hk|].
    split; [intros j Hj; inversion Hj | intros k Hk; inversion Hk].
  - assert (Hj : j < length v) by (rewrite Hlen; apply Hns; left).
    assert (Hns' : ∀ j', j' ∈ ns → j' < length bboxes) by (intros; apply Hns; right; auto).
    destruct (lookup_lt_is_Some_2 _ _ Hj) as [b Hb].
    cbn [for_each fst snd]. rewrite (list_index_Some _ _ _ Hb). run_bind.
    destruct b.
    + destruct (IH v comp Hns' Hlen Hfuel) as (v' & new & Hrun & Hg & Hs & Hseen & Hreach).
      exists v', new. split; [exact Hrun|]. split; [exact Hg|]. split; [exact Hs|]. split.
      * intros j' Hj'. apply elem_of_cons in Hj' as [->|Hj']; [|auto].
        eapply grows_seen; eauto.
      * intros k Hk. destruct (Hreach k Hk) as (j' & Hj' & Hr).
        exists j'. split; [right; exact Hj' | exact Hr].
    + destruct (Hdfs j v comp Hlen Hb Hfuel) as (v2 & new1 & Hrun1 & Hg1 & Hs1 & Hin1 & Hr1).
      rewrite Hrun1. run_bind.
      assert (Hlen2 : length v2 = length bboxes) by (destruct Hg1 as (->&_); exact Hlen).
      assert (Hfuel2 : unseen v2 ≤ fuel) by (destruct Hg1 as (_&?&_); lia).
      destruct (IH v2 (comp ++ new1) Hns' Hlen2 Hfuel2)
        as (v3 & new2 & Hrun2 & Hg2 & Hs2 & Hseen2 & Hr2).
      exists v3, (new1 ++ new2). rewrite app_assoc. split; [exact Hrun2|].
      split; [eapply grows_trans; eauto|].
      split; [eapply settled_app; eauto|]. split.
      * intros j' Hj'. apply elem_of_cons in Hj' as [->|Hj']; [|auto].
        eapply grows_seen; [exact Hg2|]. destruct Hg1 as (_&_&_&H&_). apply H. auto.
      * intros k Hk. unfold nodes in Hk. rewrite fmap_app in Hk.
        apply elem_of_app in Hk as [Hk|Hk].
        -- exists j. split; [left | auto].
        -- destruct (Hr2 k Hk) as (j' & Hj' & Hr). exists j'. split; [right; auto | auto].
Qed.

Lemma dfs_returns (fuel : nat) : dfs_contract bboxes adj_list fuel.
Proof.
  induction fuel as [|fuel IH]; intros node v comp Hlen Hnode Hfuel.
  - pose proof (unseen_store v node Hnode). lia.
  - assert (Hlt : node < length v) by (eapply lookup_lt_Some; eauto).
    assert (∃ rect, bboxes !! node = Some rect) as [rect Hrect]
      by (apply lookup_lt_is_Some_2; lia).
    cbn [dfs]. run_bind. rewrite (list_store_lt _ _ _ Hlt). run_bind.
    rewrite (list_index_Some _ _ _ Hrect). run_bind.
    pose proof (unseen_store v node Hnode) as Hun.
    destruct (neighbours_loop fuel IH (adj_list !!! node) (<[node:=true]> v)
                (comp ++ [(node, rect)]))
      as (v' & new & Hrun & Hg & Hs & Hseen & Hreach).
    { intros j Hj. eapply edge_in_range. exact Hj. }
    { rewrite length_insert. exact Hlen. }
    { lia. }
    exists v', ((node, rect) :: new).
    replace (comp ++ (node, rect) :: new) with ((comp ++ [(node, rect)]) ++ new)
      by (rewrite <- app_assoc; reflexivity).
    split; [exact Hrun|].
    assert (Hg0 : grows bboxes v (<[node:=true]> v) [(node, rect)]).
    { unfold grows, nodes. simpl. repeat split.
      - apply length_insert.
      - lia.
      - apply NoDup_singleton.
      - rewrite seen_store by exact Hlt. rewrite list_elem_of_singleton. tauto.
      - rewrite seen_store by exact Hlt. rewrite list_elem_of_singleton. tauto.
      - intros k Hk. apply list_elem_of_singleton in Hk as ->. exact Hnode.
      - intros k r Hk. apply list_elem_of_singleton in Hk as [= -> ->]. exact Hrect. }
    split; [exact (grows_trans _ _ _ _ _ Hg0 Hg)|]. split; [|split].
    + intros k j Hk He. unfold nodes in Hk. simpl in Hk.
      apply elem_of_cons in Hk as [->|Hk]; [apply Hseen; exact He | eapply Hs; eauto].
    + unfold nodes. simpl. left.
    + intros k Hk. unfold nodes in Hk. simpl in Hk.
      apply elem_of_cons in Hk as [->|Hk]; [apply rtc_refl|].
      destruct (Hreach k Hk) as (j & Hj & Hr). eapply rtc_l; [exact Hj | exact Hr].
Qed.

End Traversal.

(** ** The components *)

Section Components.


Variable bboxes : list Rect.
Variable adj_list : gmap nat (list nat).
Hypothesis edge_in_range : ∀ i j, edge adj_list i j → j < length bboxes.
Hypothesis edge_symmetric : ∀ i j, edge adj_list i j → edge adj_list j i.

Lemma seeds_loop (seeds : list nat) :
  ∀ v comps,
    (∀ i, i ∈ seeds → i < length bboxes) →
    length v = length bboxes → closed adj_list v →
    ∃ v' new,
      for_each seeds
        (λ i st,
           seen ← list_index st.1 i;
           if seen : bool then Ok st
           else
             r ← dfs (length bboxes) bboxes adj_list i (st.1, []);
             Ok (r.1, st.2 ++ [r.2]))
        (v, comps) = Ok (v', comps ++ new)
      ∧ length v' = length bboxes ∧ closed adj_list v'
      ∧ NoDup (concat (nodes <$> new))
      ∧ (∀ k, seen v' k ↔ seen v k ∨ k ∈ concat (nodes <$> new))
      ∧ (∀ k, k ∈ concat (nodes <$> new) → v !! k = Some false)
      ∧ (∀ i, i ∈ seeds → seen v' i)
      ∧ Forall (component_ok bboxes adj_list) new.
Proof.
  induction seeds as [|i seeds IH]; intros v comps Hseeds Hlen Hclosed.
  - exists v, []. simpl. rewrite app_nil_r. split; [reflexivity|].
    split; [exact Hlen|]. split; [exact Hclosed|]. split; [constructor|].
    split; [intros k; split; [auto | intros [H|H]; [exact H | inversion H]]|].
    split; [intros k H; inversion H|]. split; [intros j H; inversion H | constructor].
  - assert (Hi : i < length v) by (rewrite Hlen; apply Hseeds; left).
    assert (Hseeds' : ∀ i', i' ∈ seeds → i' < length bboxes)
      by (intros; apply Hseeds; right; auto).
    destruct (lookup_lt_is_Some_2 _ _ Hi) as [b Hb].
    cbn [for_each fst snd]. rewrite (list_index_Some _ _ _ Hb). run_bind.
    destruct b.
    + destruct (IH v comps Hseeds' Hlen Hclosed)
        as (v' & new & Hrun & Hlen' & Hcl' & Hnd & Hseen & Hfresh & Hall & Hok).
      exists v', new. split; [exact Hrun|]. repeat (split; [assumption|]).
      split; [|exact Hok].
      intros j Hj. apply elem_of_cons in Hj as [->|Hj]; [|auto].
      apply Hseen. left. exact Hb.
    + destruct (dfs_returns bboxes adj_list edge_in_range (length bboxes) i v [] Hlen Hb)
        as (v2 & c & Hrun1 & Hg & Hs & Hin & Hreach).
      { rewrite <- Hlen. apply unseen_le_length. }
      rewrite Hrun1. run_bind. simpl ([] ++ c).
      destruct Hg as (Hl2 & Hu2 & Hd2 & Hs2 & Hf2 & Hm2).
      assert (Hclosed2 : closed adj_list v2).
      { intros k j Hk He. apply Hs2 in Hk as [Hk|Hk].
        - apply Hs2. left. eapply Hclosed; eauto.
        - eapply Hs; eauto. }
      assert (Hcok : component_ok bboxes adj_list c).
      { split; [exists i; split; assumption|]. split; [|exact Hm2].
        intros k j Hk He. pose proof (Hs k j Hk He) as Hj.
        apply Hs2 in Hj as [Hj|Hj]; [|exact Hj]. exfalso.
        pose proof (Hclosed j k Hj (edge_symmetric _ _ He)) as Hk'.
        specialize (Hf2 k Hk). unfold seen in Hk'. congruence. }
      destruct (IH v2 (comps ++ [c]) Hseeds') as
        (v3 & new & Hrun2 & Hlen3 & Hcl3 & Hnd3 & Hseen3 & Hfresh3 & Hall3 & Hok3);
        [congruence | exact Hclosed2 |].
      exists v3, (c :: new).
      replace (comps ++ c :: new) with ((comps ++ [c]) ++ new)
        by (rewrite <- app_assoc; reflexivity).
      split; [exact Hrun2|]. split; [exact Hlen3|]. split; [exact Hcl3|].
      cbn [fmap list_fmap concat]. split; [|split; [|split; [|split]]].
      * apply NoDup_app. split; [exact Hd2|]. split; [|exact Hnd3].
        intros k Hk1 Hk2. specialize (Hfresh3 k Hk2).
        assert (seen v2 k) as Hc by (apply Hs2; right; exact Hk1).
        unfold seen in Hc. congruence.
      * intros k. rewrite Hseen3, Hs2, elem_of_app. tauto.
      * intros k Hk. apply elem_of_app in Hk as [Hk|Hk]; [auto|].
        specialize (Hfresh3 k Hk).
        destruct (v !! k) as [[|]|] eqn:E.
        -- assert (seen v2 k) as Hc by (apply Hs2; left; exact E).
           unfold seen in Hc. congruence.
        -- reflexivity.
        -- apply lookup_ge_None in E. apply lookup_lt_Some in Hfresh3. lia.
      * intros j Hj. apply elem_of_cons in Hj as [->|Hj]; [|auto].
        apply Hseen3. left. apply Hs2. right. exact Hin.
      * constructor; assumption.
Qed.

Lemma find_components_returns :
  ∃ comps,
    find_components bboxes adj_list = Ok comps
    ∧ concat (nodes <$> comps) ≡ₚ seq 0 (length bboxes)
    ∧ Forall (component_ok bboxes adj_list) comps.
Proof.
  destruct (seeds_loop (seq 0 (length bboxes)) (replicate (length bboxes) false) [])
    as (v' & comps & Hrun & Hlen & Hcl & Hnd & Hseen & Hfresh & Hall & Hok).
  - intros i Hi. apply elem_of_seq in Hi. lia.
  - apply length_replicate.
  - intros k j Hk. unfold seen in Hk. apply lookup_replicate in Hk as [[=] _].
  - exists comps. unfold find_components. rewrite Hrun. run_bind.
    split; [reflexivity|]. split; [|exact Hok].
    apply NoDup_Permutation; [exact Hnd | apply NoDup_seq |].
    intros k. rewrite elem_of_seq. split.
    + intros Hk. apply Hfresh in Hk. apply lookup_lt_Some in Hk.
      rewrite length_replicate in Hk. lia.
    + intros Hk. assert (Hs : seen v' k) by (apply Hall, elem_of_seq; lia).
      apply Hseen in Hs as [Hs|Hs]; [|exact Hs].
      unfold seen in Hs. apply lookup_replicate in Hs as [[=] _].
Qed.

End Components.

(** [components] returns: the two hypotheses of the section hold of the
    adjacency lists the code builds. *)
Lemma components_returns (bboxes : list Rect) (threshold : Q) :
  ∃ comps,
    components bboxes threshold = Ok comps
    ∧ concat (nodes <$> comps) ≡ₚ seq 0 (length bboxes)
    ∧ Forall (component_ok bboxes (adjacency bboxes threshold)) comps.
Proof.
  unfold components. apply find_components_returns.
  - intros i j He. eapply edge_lt. exact He.
  - intros i j He. apply edge_sym. exact He.
Qed.

Lemma component_nonempty (bboxes : list Rect) (adj_list : gmap nat (list nat))
    (c : list (nat * Rect)) :
  component_ok bboxes adj_list c → ∃ member rest, c = member :: rest.
Proof.
  intros ((seed & Hseed & _) & _). destruct c as [|member rest]; [inversion Hseed | eauto].
Qed.

Lemma merge_components (bboxes : list Rect) (adj_list : gmap nat (list nat))
    (comps : list (list (nat * Rect))) :
  Forall (component_ok bboxes adj_list) comps →
  ∃ merged,
    (λ group : list (nat * Rect), merge_bounding_boxes group.*2) <$> comps
    = Some <$> merged
    ∧ length merged = length comps.
Proof.
  induction 1 as [|c comps Hc _ (merged & Heq & Hlen)].
  - exists []. split; reflexivity.
  - destruct (component_nonempty _ _ _ Hc) as ([k r] & rest & ->).
    exists (merge_loop r rest.*2 :: merged). cbn [fmap list_fmap]. rewrite Heq.
    split; [reflexivity | simpl; congruence].
Qed.

Lemma rtc_stays_inside (R : relation nat) (P : nat → Prop) :
  (∀ i j, P i → R i j → P j) → ∀ x y, rtc R x y → P x → P y.
Proof. intros Hstep x y Hxy. induction Hxy; eauto. Qed.

(** C2.  [group_bounding_boxes] returns, with one merged rectangle per
    component, and the components partition the positions of the input:
    the nodes of all components together are a permutation of
    [0 .. len(bboxes) - 1], so the member counts add up to the input length,
    every position is in exactly one component, and every member is the
    rectangle at its position. *)
Theorem components_partition_input (bboxes : list Rect) (threshold : Q) :
  ∃ comps merged,
    components bboxes threshold = Ok comps
    ∧ group_bounding_boxes bboxes threshold = Ok (Some <$> merged)
    ∧ length merged = length comps
    ∧ concat (nodes <$> comps) ≡ₚ seq 0 (length bboxes)
    ∧ sum_list (length <$> comps) = length bboxes
    ∧ (∀ k, k < length bboxes →
         ∃ i c, comps !! i = Some c ∧ k ∈ nodes c
                ∧ ∀ i' c', comps !! i' = Some c' → k ∈ nodes c' → i' = i)
    ∧ (∀ c k r, c ∈ comps → (k, r) ∈ c → bboxes !! k = Some r).
Proof.
  destruct (components_returns bboxes threshold) as (comps & Hrun & Hperm & Hok).
  destruct (merge_components _ _ _ Hok) as (merged & Hmerged & Hlen).
  exists comps, merged. split; [exact Hrun|].
  split; [unfold group_bounding_boxes; rewrite Hrun; run_bind; rewrite Hmerged; reflexivity|].
  split; [exact Hlen|]. split; [exact Hperm|].
  assert (Hnd : NoDup (concat (nodes <$> comps)))
    by (rewrite Hperm; apply NoDup_seq).
  split; [|split].
  - assert (Hcount : length (concat (nodes <$> comps)) = length bboxes)
      by (rewrite Hperm; apply length_seq).
    rewrite length_concat_sum, <- list_fmap_compose in Hcount.
    rewrite <- Hcount. f_equal. apply list_fmap_ext.
    intros i c _. simpl. unfold nodes. rewrite length_fmap. reflexivity.
  - intros k Hk.
    assert (Hin : k ∈ concat (nodes <$> comps))
      by (rewrite Hperm; apply elem_of_seq; lia).
    apply elem_of_concat in Hin as (l & Hl & Hkl).
    apply list_elem_of_fmap in Hl as (c & -> & Hc).
    apply list_elem_of_lookup in Hc as (i & Hi).
    exists i, c. split; [exact Hi|]. split; [exact Hkl|].
    intros i' c' Hi' Hk'.
    apply (NoDup_concat_unique (nodes <$> comps) i' i (nodes c') (nodes c) k Hnd);
      [rewrite list_lookup_fmap, Hi' | rewrite list_lookup_fmap, Hi | | ]; auto.
  - intros c k r Hc Hkr. rewrite Forall_forall in Hok.
    destruct (Hok c Hc) as (_ & _ & Hm). eauto.
Qed.

(** C5.  For [T1 <= T2], both groupings return, and every component found
    with threshold [T1] lies within one component found with [T2], which
    therefore has at least as many members. *)
Theorem raising_threshold_only_merges (bboxes : list Rect) (T1 T2 : Q) :
  (T1 <= T2)%Q →
  ∃ comps1 comps2,
    components bboxes T1 = Ok comps1
    ∧ components bboxes T2 = Ok comps2
    ∧ ∀ c1, c1 ∈ comps1 →
        ∃ c2, c2 ∈ comps2 ∧ nodes c1 ⊆ nodes c2 ∧ length c1 ≤ length c2.
Proof.
  intros HT.
  destruct (components_returns bboxes T1) as (comps1 & Hrun1 & Hperm1 & Hok1).
  destruct (components_returns bboxes T2) as (comps2 & Hrun2 & Hperm2 & Hok2).
  exists comps1, comps2. split; [exact Hrun1|]. split; [exact Hrun2|].
  intros c1 Hc1. rewrite Forall_forall in Hok1, Hok2.
  destruct (Hok1 c1 Hc1) as ((seed & Hseed & Hreach) & _ & _).
  assert (Hin : seed ∈ concat (nodes <$> comps2)).
  { rewrite Hperm2, <- Hperm1. apply elem_of_concat. exists (nodes c1).
    split; [apply list_elem_of_fmap; eauto | exact Hseed]. }
  apply elem_of_concat in Hin as (l & Hl & Hseed2).
  apply list_elem_of_fmap in Hl as (c2 & -> & Hc2).
  destruct (Hok2 c2 Hc2) as (_ & Hclosed2 & _).
  assert (Hsub : nodes c1 ⊆ nodes c2).
  { intros k Hk. apply (rtc_stays_inside (edge (adjacency bboxes T1)) (.∈ nodes c2))
      with (x := seed); [|apply Hreach; exact Hk | exact Hseed2].
    intros i j Hi Hij. eapply Hclosed2; [exact Hi|].
    eapply edge_mono; [exact HT | exact Hij]. }
  exists c2. split; [exact Hc2|]. split; [exact Hsub|].
  assert (Hnd1 : NoDup (nodes c1)).
  { apply (NoDup_concat_part (nodes <$> comps1)).
    - rewrite Hperm1. apply NoDup_seq.
    - apply list_elem_of_fmap. eauto. }
  pose proof (submseteq_length _ _ (NoDup_submseteq _ _ Hnd1 Hsub)) as Hlen.
  unfold nodes in Hlen. rewrite !length_fmap in Hlen. exact Hlen.
Qed.

Lemma raising_threshold_only_merges_witness :
  (0 <= 1)%Q
  ∧ ∃ comps1 comps2,
      components unit_squares 0 = Ok comps1
      ∧ components unit_squares 1 = Ok comps2
      ∧ ∀ c1, c1 ∈ comps1 →
          ∃ c2, c2 ∈ comps2 ∧ nodes c1 ⊆ nodes c2 ∧ length c1 ≤ length c2.
Proof.
  split; [lra|]. apply (raising_threshold_only_merges unit_squares 0 1). lra.
Defined.

Lemma surrounding_text_positive (page : Page) (group : Rect) (threshold : Q)
    (block_rect : Rect) :
  block_rect ∈ find_surrounding_text page group threshold → positive_extent block_rect.
Proof.
  unfold find_surrounding_text. rewrite list_elem_of_omap.
  intros (block & _ & Hb). destruct (decide _); [discriminate|].
  destruct (rect_intersects _ _) eqn:Hi; [|discriminate]. injection Hb as <-.
  unfold rect_intersects in Hi. rewrite !andb_true_iff, !negb_true_iff in Hi.
  apply rect_is_empty_false. tauto.
Qed.

Lemma figure_bbox_of_covers (group : Rect) (surrounding : list Rect) (m : Rect) :
  positive_extent m → m = group ∨ m ∈ surrounding →
  ∃ figure_bbox, figure_bbox_of group surrounding = Some figure_bbox
                 ∧ encloses figure_bbox m.
Proof.
  intros Hm Hin. unfold figure_bbox_of.
  destruct (decide (length surrounding ≠ 0)) as [Hne|He].
  - apply merge_encloses; [exact Hm|]. simpl.
    destruct Hin as [-> | Hin]; [left | right; exact Hin].
  - exists group. split; [reflexivity|].
    destruct Hin as [-> | Hin]; [apply encloses_refl|].
    destruct surrounding; [inversion Hin | simpl in He; lia].
Qed.

(** C6 (amended).  A merged rectangle encloses every member of positive
    width and height, and the four corners of such a member lie inside it;
    the candidate rectangle of [extract_vector] encloses its group, when that
    has positive width and height, and every text block
    [find_surrounding_text] found for it; and the rectangle merged from a
    component encloses every member of the component that has positive width
    and height, and so does the candidate rectangle made from it. *)
Theorem union_encloses_members_of_positive_extent :
  (∀ group m, m ∈ group → positive_extent m →
     ∃ r, merge_bounding_boxes group = Some r ∧ encloses r m
          ∧ ∀ p, p ∈ corners m → point_in r p)
  ∧ (∀ page group threshold,
       let surrounding := find_surrounding_text page group threshold in
       ∃ figure_bbox, figure_bbox_of group surrounding = Some figure_bbox
         ∧ (positive_extent group → encloses figure_bbox group)
         ∧ ∀ block_rect, block_rect ∈ surrounding → encloses figure_bbox block_rect)
  ∧ (∀ bboxes threshold comps c k m surrounding,
       components bboxes threshold = Ok comps → c ∈ comps → (k, m) ∈ c →
       positive_extent m →
       bboxes !! k = Some m
       ∧ ∃ r figure_bbox,
           merge_bounding_boxes c.*2 = Some r ∧ encloses r m
           ∧ figure_bbox_of r surrounding = Some figure_bbox
           ∧ encloses figure_bbox m).
Proof.
  split; [|split].
  - intros group m Hin Hm. destruct (merge_encloses group m Hm Hin) as (r & Hr & He).
    exists r. split; [exact Hr|]. split; [exact He|].
    apply encloses_corners; [exact He | apply positive_extent_valid, Hm].
  - intros page group threshold surrounding.
    destruct (figure_bbox_of group surrounding) as [figure_bbox|] eqn:E.
    + exists figure_bbox. split; [reflexivity|]. split.
      * intros Hg. destruct (figure_bbox_of_covers group surrounding group Hg)
          as (fb & Hfb & He); [left; reflexivity|]. congruence.
      * intros block_rect Hb.
        destruct (figure_bbox_of_covers group surrounding block_rect)
          as (fb & Hfb & He);
          [eapply surrounding_text_positive; exact Hb | right; exact Hb|]. congruence.
    + exfalso. unfold figure_bbox_of in E. destruct (decide _); [|discriminate].
      simpl in E. rewrite merge_cons in E. discriminate.
  - intros bboxes threshold comps c k m surrounding Hrun Hc Hkm Hm.
    destruct (components_returns bboxes threshold) as (comps' & Hrun' & _ & Hok).
    rewrite Hrun in Hrun'. injection Hrun' as <-.
    rewrite Forall_forall in Hok. destruct (Hok c Hc) as (_ & _ & Hmem).
    split; [eauto|].
    destruct (merge_encloses c.*2 m Hm) as (r & Hr & He);
      [apply list_elem_of_fmap; exists (k, m); split; [reflexivity | exact Hkm]|].
    destruct (figure_bbox_of_covers r surrounding r) as (fb & Hfb & He');
      [eapply encloses_positive; eassumption | left; reflexivity|].
    exists r, fb. split; [exact Hr|]. split; [exact He|]. split; [exact Hfb|].
    eapply encloses_trans; eassumption.
Qed.

(** C6 as stated fails: the union leaves a member of zero height out, so
    the merged rectangle does not reach it; and a rectangle given inverted
    does not hold its own corners. *)
Lemma zero_height_member_is_left_out :
  let box := mkRect 0 0 10 10 in
  let line := mkRect 20 5 30 5 in
  let inverted := mkRect 5 5 1 1 in
  valid line
  ∧ merge_bounding_boxes [box; line] = Some box
  ∧ (20%Q, 5%Q) ∈ corners line ∧ ¬ point_in box (20%Q, 5%Q) ∧ ¬ encloses box line
  ∧ merge_bounding_boxes [inverted] = Some inverted
  ∧ (5%Q, 5%Q) ∈ corners inverted ∧ ¬ point_in inverted (5%Q, 5%Q).
Proof.
  cbv zeta. split; [split; simpl; lra|]. split; [reflexivity|].
  split; [left|]. split; [unfold point_in; simpl; lra|].
  split; [unfold encloses; simpl; lra|]. split; [reflexivity|].
  split; [left|]. unfold point_in; simpl; lra.
Qed.

(** ** The orchestrators *)

Lemma io_for_each_app {A S : Type} (l1 l2 : list A) (body : A → S → io S)
    (s : S) (fs : FS) :
  io_for_each (l1 ++ l2) body s fs
  = match io_for_each l1 body s fs with
    | (fs1, Ok s1) => io_for_each l2 body s1 fs1
    | (fs1, Raise e) => (fs1, Raise e)
    end.
Proof.
  revert s fs. induction l1 as [|x l1 IH]; intros s fs; simpl.
  - reflexivity.
  - unfold mbind, io_bind.
    destruct (body x s fs) as [fs' [s'|e]]; [apply IH | reflexivity].
Qed.

Lemma accumulated_text_joined (sep : string) (doc : list Page) :
  (doc = [] ∧ accumulated_text sep doc = "")
  ∨ accumulated_text sep doc = sep +:+ joined_text sep (strip ∘ p_text <$> doc).
Proof.
  induction doc as [|page doc IH]; [left; split; reflexivity|]. right.
  cbn [accumulated_text foldr]. fold (accumulated_text sep doc).
  destruct doc as [|page' doc].
  - cbn [accumulated_text foldr fmap list_fmap joined_text String.concat compose].
    rewrite string_app_nil_r. reflexivity.
  - destruct IH as [[[=] _] | ->]. reflexivity.
Qed.

Section OrchestratorProperties.

Variable md5_hexdigest : string → string.

Lemma figure_step_render_fails (page : Page) (page_num : nat) (images_dir : string)
    (min_size max_size : Q) (group_num : nat) (group figure_bbox : Rect)
    (e : exn) (fs : FS) :
  figure_bbox_of group (find_surrounding_text page group THRESHOLD) = Some figure_bbox →
  size_filter min_size max_size figure_bbox = true →
  p_render page ZOOM figure_bbox = Raise e →
  figure_step md5_hexdigest page page_num images_dir min_size max_size
              group_num (Some group) fs = (fs, Raise e).
Proof.
  intros Hbb Hsize Hrender. unfold figure_step. rewrite Hbb, Hsize.
  unfold mbind, io_bind, lift. rewrite Hrender. reflexivity.
Qed.

(** C7 (amended).  When the render collaborator fails for a candidate that
    passed the size filter, [extract_vector] raises that failure: what the
    earlier candidates wrote stays written, and nothing is written for the
    failing candidate or for any candidate after it. *)
Theorem render_failure_aborts_page (page : Page) (page_num : nat)
    (images_dir : string) (fs fs1 : FS) (pre post : list (option Rect))
    (group figure_bbox : Rect) (e : exn) :
  let min_size := (page_size page * MIN_SIZE)%Q in
  let max_size := (page_size page * MAX_SIZE)%Q in
  process_large_drawing (p_drawings page) MAX_DRAWINGS THRESHOLD
    = Ok (pre ++ Some group :: post) →
  figures_loop md5_hexdigest page page_num images_dir min_size max_size
    (enumerate pre) fs = (fs1, Ok ()) →
  figure_bbox_of group (find_surrounding_text page group THRESHOLD) = Some figure_bbox →
  size_filter min_size max_size figure_bbox = true →
  p_render page ZOOM figure_bbox = Raise e →
  extract_vector md5_hexdigest page page_num images_dir fs = (fs1, Raise e).
Proof.
  intros min_size max_size Hgrouped Hpre Hbb Hsize Hrender.
  unfold extract_vector. fold min_size max_size.
  unfold mbind at 1. unfold io_bind at 1. unfold lift. rewrite Hgrouped.
  unfold mbind at 1. unfold io_bind at 1.
  unfold figures_loop in *. rewrite enumerate_app, io_for_each_app, Hpre.
  cbn [imap io_for_each]. unfold mbind at 1. unfold io_bind at 1.
  rewrite (figure_step_render_fails _ _ _ _ _ _ _ figure_bbox e); auto.
Qed.

Lemma text_loop (images_dir : string) (items : list (nat * Page))
    (text text' : string) (fs fs' : FS) :
  io_for_each items
    (λ '(page_num, page) text,
       let text := join2 " " text (strip (p_text page)) in
       extract_images md5_hexdigest page page_num images_dir;;
       extract_vector md5_hexdigest page page_num images_dir;;
       mret text)
    text fs = (fs', Ok text') →
  text' = text +:+ accumulated_text " " items.*2.
Proof.
  revert text fs. induction items as [|[page_num page] items IH]; intros text fs; simpl.
  - intros [= _ <-]. unfold mret, io_ret. symmetry. apply string_app_nil_r.
  - unfold mbind at 1. unfold io_bind at 1.
    unfold mbind at 1. unfold io_bind at 1.
    destruct (extract_images _ _ _ _ fs) as [fs1 [b1|e1]]; [|discriminate].
    unfold mbind at 1. unfold io_bind at 1.
    destruct (extract_vector _ _ _ _ fs1) as [fs2 [b2|e2]]; [|discriminate].
    unfold mret at 1. unfold io_ret at 1.
    intros H. apply IH in H. subst text'. unfold join2.
    rewrite !string_app_assoc. reflexivity.
Qed.

Lemma extract_pdf_ragntex_writes_text (doc : list Page) (article_dir : string)
    (fs fs' : FS) (b : bool) :
  extract_pdf_ragntex md5_hexdigest doc article_dir fs = (fs', Ok b) →
  last fs' = Some (path_join article_dir "ragntex.txt", accumulated_text " " doc).
Proof.
  unfold extract_pdf_ragntex.
  unfold mbind at 1. unfold io_bind at 1.
  destruct (io_for_each _ _ _ fs) as [fs1 [text|e]] eqn:Hloop; [|discriminate].
  apply text_loop in Hloop. rewrite enumerate_snd in Hloop. simpl in Hloop.
  subst text. unfold mbind, io_bind, write_file, mret, io_ret.
  intros [= <- _]. apply last_snoc.
Qed.

(** C9 (amended).  When [extract_pdf_ragntex] completes, its last write is
    the text file, and its content is the pages' texts, each stripped of the
    whitespace at its ends, joined in page order by single spaces, with
    nothing after the last page's text and at most one separator before the
    first. *)
Theorem text_artifact_joins_stripped_pages (doc : list Page) (article_dir : string)
    (fs fs' : FS) (b : bool) :
  extract_pdf_ragntex md5_hexdigest doc article_dir fs = (fs', Ok b) →
  ∃ lead,
    (lead = "" ∨ lead = " ")
    ∧ last fs'
      = Some (path_join article_dir "ragntex.txt",
              lead +:+ joined_text " " (strip ∘ p_text <$> doc)).
Proof.
  intros Hrun. apply extract_pdf_ragntex_writes_text in Hrun. rewrite Hrun.
  destruct (accumulated_text_joined " " doc) as [[-> ->] | Heq].
  - exists "". split; [left; reflexivity | reflexivity].
  - exists " ". split; [right; reflexivity | rewrite Heq; reflexivity].
Qed.

End OrchestratorProperties.

Lemma render_failure_aborts_page_witness :
  extract_vector constant_digest (two_figures first_fails) 0 "out/ragntex" []
  = ([], Raise LibraryError).
Proof.
  apply (render_failure_aborts_page constant_digest (two_figures first_fails) 0
           "out/ragntex" [] [] [] [Some (mkRect 50 50 80 80)]
           (mkRect 0 0 30 30) (mkRect 0 0 30 30) LibraryError);
    vm_compute; reflexivity.
Defined.

(** C7 as stated fails: the first of two candidates fails to render, the
    second would render, and the page is abandoned with nothing written,
    where skipping the first would have written the second. *)
Lemma render_failure_is_not_skipped :
  let page := two_figures first_fails in
  process_large_drawing (p_drawings page) MAX_DRAWINGS THRESHOLD
    = Ok [Some (mkRect 0 0 30 30); Some (mkRect 50 50 80 80)]
  ∧ p_render page ZOOM (mkRect 0 0 30 30) = Raise LibraryError
  ∧ p_render page ZOOM (mkRect 50 50 80 80) = Ok "png"
  ∧ extract_vector_recovering constant_digest page 0 "out/ragntex" []
    = ([("out/ragntex/page0_fig1_hash01234567.png", "png")], Ok true)
  ∧ extract_vector constant_digest page 0 "out/ragntex" [] = ([], Raise LibraryError).
Proof. vm_compute. repeat split. Qed.

Lemma text_artifact_joins_stripped_pages_witness :
  ∃ lead,
    (lead = "" ∨ lead = " ")
    ∧ last (extract_pdf_ragntex constant_digest one_page "out" []).1
      = Some (path_join "out" "ragntex.txt",
              lead +:+ joined_text " " (strip ∘ p_text <$> one_page)).
Proof.
  apply (text_artifact_joins_stripped_pages constant_digest one_page "out" [] _ true).
  vm_compute. reflexivity.
Defined.

(** C9 as stated fails: for a document of one page whose text is ["a"] and
    a newline, the file holds [" a"]; the page texts joined by one separator
    are ["a"] and the newline, and even the stripped page texts joined by one
    separator are ["a"], without the space in front. *)
Lemma text_artifact_is_not_the_joined_page_texts :
  let written := " a" in
  extract_pdf_ragntex constant_digest one_page "out" []
    = ([("out/ragntex.txt", written)], Ok true)
  ∧ joined_text " " (p_text <$> one_page)
    = String "a" (String (ascii_of_nat 10) EmptyString)
  ∧ joined_text " " (strip ∘ p_text <$> one_page) = "a"
  ∧ written ≠ joined_text " " (p_text <$> one_page)
  ∧ written ≠ joined_text " " (strip ∘ p_text <$> one_page).
Proof. vm_compute. repeat split; discriminate. Qed.

(** * Further properties of the code *)

(** ** More on the proximity graph and the components *)

(** X1.  An entry [j] of the adjacency list of [i] has [i] in its own list,
    is different from [i], and both are positions of the input. *)
Theorem adjacency_symmetric_irreflexive (bboxes : list Rect) (threshold : Q) (i j : nat) :
  j ∈ adjacency bboxes threshold !!! i →
  i ∈ adjacency bboxes threshold !!! j
  ∧ i ≠ j ∧ i < length bboxes ∧ j < length bboxes.
Proof.
  intros He. split; [apply edge_sym; exact He|].
  pose proof (edge_lt _ _ _ _ He) as [Hi Hj].
  apply edge_iff in He as (a & b & _ & _ & Hne & _). auto.
Qed.

Lemma adjacency_symmetric_irreflexive_witness :
  1 ∈ adjacency unit_squares 1 !!! 0
  ∧ 1 ≠ 0 ∧ 1 < length unit_squares ∧ 0 < length unit_squares.
Proof.
  apply (adjacency_symmetric_irreflexive unit_squares 1 1 0).
  vm_compute. apply list_elem_of_In. simpl. tauto.
Defined.

Lemma rtc_symmetric (R : relation nat) :
  (∀ i j, R i j → R j i) → ∀ x y, rtc R x y → rtc R y x.
Proof.
  intros Hsym x y Hxy. induction Hxy as [|x y z Hxy _ IH]; [apply rtc_refl|].
  eapply rtc_r; [exact IH | apply Hsym, Hxy].
Qed.

(** X2.  Two positions are in the same component iff a chain of adjacency
    edges links them. *)
Theorem same_component_iff_connected (bboxes : list Rect) (threshold : Q) :
  ∃ comps,
    components bboxes threshold = Ok comps
    ∧ ∀ i j, i < length bboxes →
        ((∃ c, c ∈ comps ∧ i ∈ nodes c ∧ j ∈ nodes c)
         ↔ rtc (edge (adjacency bboxes threshold)) i j).
Proof.
  destruct (components_returns bboxes threshold) as (comps & Hrun & Hperm & Hok).
  exists comps. split; [exact Hrun|]. intros i j Hi.
  rewrite Forall_forall in Hok. split.
  - intros (c & Hc & Hic & Hjc).
    destruct (Hok c Hc) as ((seed & _ & Hreach) & _ & _).
    transitivity seed; [|apply Hreach, Hjc].
    apply rtc_symmetric; [intros x y; apply edge_sym | apply Hreach, Hic].
  - intros Hij.
    assert (Hin : i ∈ concat (nodes <$> comps))
      by (rewrite Hperm; apply elem_of_seq; lia).
    apply elem_of_concat in Hin as (l & Hl & Hil).
    apply list_elem_of_fmap in Hl as (c & -> & Hc).
    exists c. split; [exact Hc|]. split; [exact Hil|].
    destruct (Hok c Hc) as (_ & Hclosed & _).
    apply (rtc_stays_inside (edge (adjacency bboxes threshold)) (.∈ nodes c))
      with (x := i); auto.
Qed.

Lemma components_count (bboxes : list Rect) (adj_list : gmap nat (list nat))
    (comps : list (list (nat * Rect))) :
  Forall (component_ok bboxes adj_list) comps →
  length comps ≤ sum_list (length <$> comps).
Proof.
  induction 1 as [|c comps Hc _ IH]; [reflexivity|].
  destruct (component_nonempty _ _ _ Hc) as (m & rest & ->). csimpl. lia.
Qed.

(** What one call of [group_bounding_boxes] gives in the model: rectangles
    only, no more of them than it was given, none exactly when it was given
    none, and every region of positive extent that lies inside a given
    rectangle lies inside a returned one. *)
Lemma group_returns_rects (bboxes : list Rect) (threshold : Q) :
  ∃ merged,
    group_bounding_boxes bboxes threshold = Ok (Some <$> merged)
    ∧ length merged ≤ length bboxes
    ∧ (merged = [] ↔ bboxes = [])
    ∧ ∀ r d, r ∈ bboxes → positive_extent d → encloses r d →
        ∃ m, m ∈ merged ∧ encloses m d.
Proof.
  destruct (components_returns bboxes threshold) as (comps & Hrun & Hperm & Hok).
  destruct (merge_components _ _ _ Hok) as (merged & Hmerged & Hlen).
  exists merged.
  split; [unfold group_bounding_boxes; rewrite Hrun; run_bind; rewrite Hmerged; reflexivity|].
  assert (Hcount : sum_list (length <$> comps) = length bboxes).
  { assert (H : length (concat (nodes <$> comps)) = length bboxes)
      by (rewrite Hperm; apply length_seq).
    rewrite length_concat_sum, <- list_fmap_compose in H.
    rewrite <- H. f_equal. apply list_fmap_ext.
    intros i c _. simpl. unfold nodes. rewrite length_fmap. reflexivity. }
  pose proof (components_count _ _ _ Hok) as Hle.
  split; [lia|]. split; [split|].
  - intros ->. simpl in Hlen. destruct comps; [|discriminate].
    simpl in Hcount. destruct bboxes; [reflexivity | discriminate].
  - intros ->. simpl in *. destruct merged; [reflexivity | simpl in *; lia].
  - intros r d Hr Hd He. apply list_elem_of_lookup in Hr as (k & Hk).
    assert (Hin : k ∈ concat (nodes <$> comps)).
    { rewrite Hperm. apply elem_of_seq. apply lookup_lt_Some in Hk. lia. }
    apply elem_of_concat in Hin as (l & Hl & Hkl).
    apply list_elem_of_fmap in Hl as (c & -> & Hc).
    unfold nodes in Hkl. apply list_elem_of_fmap in Hkl as ([k' r'] & Hk' & Hkr).
    simpl in Hk'. subst k'.
    rewrite Forall_forall in Hok. destruct (Hok c Hc) as (_ & _ & Hmem).
    assert (r' = r) by (specialize (Hmem k r' Hkr); congruence). subst r'.
    apply list_elem_of_lookup in Hc as (i & Hi).
    assert (Hm : ((λ group : list (nat * Rect), merge_bounding_boxes group.*2) <$> comps) !! i
                 = Some (merge_bounding_boxes c.*2))
      by (rewrite list_lookup_fmap, Hi; reflexivity).
    rewrite Hmerged, list_lookup_fmap in Hm.
    destruct (merged !! i) as [m|] eqn:Em; [|discriminate]. injection Hm as Hm.
    exists m. split; [eapply list_elem_of_lookup_2; exact Em|].
    assert (Hrin : r ∈ c.*2)
      by (apply list_elem_of_fmap; exists (k, r); split; [reflexivity | exact Hkr]).
    destruct (merge_covers _ _ _ Hd Hrin He) as (m' & Hm' & He'). congruence.
Qed.

(** X3.  Whenever [group_bounding_boxes] returns, its list holds rectangles
    only (never [None]), no more of them than it was given, and none exactly
    when it was given none. *)
Theorem group_bounding_boxes_shape (bboxes : list Rect) (threshold : Q)
    (out : list (option Rect)) :
  group_bounding_boxes bboxes threshold = Ok out →
  ∃ merged,
    out = Some <$> merged
    ∧ length merged ≤ length bboxes
    ∧ (merged = [] ↔ bboxes = []).
Proof.
  intros Hout.
  destruct (group_returns_rects bboxes threshold) as (merged & Hrun & Hlen & Hnil & _).
  exists merged. split; [congruence | auto].
Qed.

Lemma group_bounding_boxes_shape_witness :
  ∃ merged,
    [Some (mkRect 0 0 2 2); Some (mkRect 10 10 11 11)] = Some <$> merged
    ∧ length merged ≤ length unit_squares
    ∧ (merged = [] ↔ unit_squares = []).
Proof.
  apply (group_bounding_boxes_shape unit_squares 0).
  vm_compute. reflexivity.
Defined.






Lemma list_index_None {A : Type} (l : list A) (i : nat) :
  l !! i = None → list_index l i = Raise IndexError.
Proof. unfold list_index. intros ->. reflexivity. Qed.

Section DiscoveryOrder.

Variable bboxes : list Rect.
Variable adj_list : gmap nat (list nat).
Hypothesis edge_in_range : ∀ i j, edge adj_list i j → j < length bboxes.

(** The loop over the neighbours only appends to the component. *)
Lemma neighbours_loop_appends (fuel : nat) :
  (∀ node st st', dfs fuel bboxes adj_list node st = Ok st' →
     ∃ rest, st'.2 = st.2 ++ rest) →
  ∀ ns st st',
    for_each ns
      (λ neighbor st',
         seen ← list_index st'.1 neighbor;
         if seen : bool then Ok st'
         else dfs fuel bboxes adj_list neighbor st')
      st = Ok st' →
    ∃ rest, st'.2 = st.2 ++ rest.
Proof.
  intros Hdfs ns. induction ns as [|j ns IH]; intros st st' Hrun.
  - injection Hrun as <-. exists []. rewrite app_nil_r. reflexivity.
  - cbn [for_each] in Hrun.
    destruct (st.1 !! j) as [[|]|] eqn:Hj;
      [rewrite (list_index_Some _ _ _ Hj) in Hrun
      |rewrite (list_index_Some _ _ _ Hj) in Hrun
      |rewrite (list_index_None _ _ Hj) in Hrun];
      cbn [mbind result_bind] in Hrun; [apply IH, Hrun | | discriminate].
    destruct (dfs fuel bboxes adj_list j st) as [st1|e] eqn:E; [|discriminate].
    cbn [mbind result_bind] in Hrun.
    destruct (Hdfs _ _ _ E) as [rest1 H1]. destruct (IH _ _ Hrun) as [rest2 H2].
    exists (rest1 ++ rest2). rewrite H2, H1, app_assoc. reflexivity.
Qed.

(** [dfs] appends the node it is called on first. *)
Lemma dfs_appends_node_first (fuel : nat) :
  ∀ node st st', dfs fuel bboxes adj_list node st = Ok st' →
    ∃ rect rest, st'.2 = st.2 ++ (node, rect) :: rest.
Proof.
  induction fuel as [|fuel IH]; intros node st st' Hrun; [discriminate|].
  cbn [dfs] in Hrun. unfold list_store in Hrun.
  destruct (decide (node < length st.1)); [|discriminate].
  cbn [mbind result_bind] in Hrun.
  destruct (bboxes !! node) as [rect|] eqn:Hrect;
    [rewrite (list_index_Some _ _ _ Hrect) in Hrun
    |rewrite (list_index_None _ _ Hrect) in Hrun; discriminate].
  cbn [mbind result_bind] in Hrun.
  apply neighbours_loop_appends in Hrun as [rest Hrest].
  - exists rect, rest. rewrite Hrest. cbn [snd]. rewrite <- app_assoc. reflexivity.
  - intros n s s' H. destruct (IH n s s' H) as (r & rest' & ->). eauto.
Qed.

Lemma seeds_loop_ordered (m : nat) :
  ∀ k v comps,
    k + m = length bboxes → length v = length bboxes →
    (∀ i, i < k → seen v i) →
    ∃ v' new,
      for_each (seq k m)
        (λ i st,
           seen ← list_index st.1 i;
           if seen : bool then Ok st
           else
             r ← dfs (length bboxes) bboxes adj_list i (st.1, []);
             Ok (r.1, st.2 ++ [r.2]))
        (v, comps) = Ok (v', comps ++ new)
      ∧ (∀ c x, c ∈ new → x ∈ nodes c → k ≤ x)
      ∧ ∀ i c, new !! i = Some c →
          ∃ seed rest,
            nodes c = seed :: rest
            ∧ (∀ x, x ∈ rest → seed < x)
            ∧ ∀ i' c' x, i < i' → new !! i' = Some c' → x ∈ nodes c' → seed < x.
Proof.
  induction m as [|m IH]; intros k v comps Hkm Hlen Hbelow.
  - exists v, []. cbn [seq for_each]. rewrite app_nil_r. split; [reflexivity|].
    split; [intros c x Hc; inversion Hc | intros i c Hi; discriminate].
  - assert (Hk : k < length v) by lia.
    destruct (lookup_lt_is_Some_2 _ _ Hk) as [b Hb].
    cbn [seq for_each fst snd]. rewrite (list_index_Some _ _ _ Hb). run_bind.
    destruct b.
    + destruct (IH (S k) v comps) as (v' & new & Hrun & Hge & Hord); [lia | exact Hlen | |].
      { intros i Hi. destruct (decide (i = k)) as [->|]; [exact Hb | apply Hbelow; lia]. }
      exists v', new. split; [exact Hrun|]. split; [|exact Hord].
      intros c x Hc Hx. specialize (Hge c x Hc Hx). lia.
    + destruct (dfs_returns bboxes adj_list edge_in_range (length bboxes) k v [] Hlen Hb)
        as (v2 & c & Hrun1 & Hg & _ & Hin & _).
      { rewrite <- Hlen. apply unseen_le_length. }
      destruct (dfs_appends_node_first _ _ _ _ Hrun1) as (rect & rest & Hc).
      cbn [snd app] in Hc. subst c.
      rewrite Hrun1. run_bind. cbn [app].
      pose proof Hg as (Hl2 & _ & Hd2 & Hs2 & Hf2 & _).
      assert (Hfresh : ∀ x, x ∈ rest.*1 → k < x).
      { intros x Hx. unfold nodes in Hd2. cbn [fmap list_fmap fst] in Hd2.
        apply NoDup_cons in Hd2 as [Hnotin _].
        assert (x ≠ k) by (intros ->; contradiction).
        assert (Hxf : v !! x = Some false) by (apply Hf2; unfold nodes; right; exact Hx).
        destruct (decide (x < k)) as [Hlt|]; [|lia].
        specialize (Hbelow x Hlt). unfold seen in Hbelow. congruence. }
      destruct (IH (S k) v2 (comps ++ [(k, rect) :: rest]))
        as (v' & new & Hrun & Hge & Hord); [lia | congruence | |].
      { intros i Hi. apply Hs2. destruct (decide (i = k)) as [->|].
        - right. exact Hin.
        - left. apply Hbelow. lia. }
      exists v', (((k, rect) :: rest) :: new).
      replace (comps ++ ((k, rect) :: rest) :: new)
        with ((comps ++ [(k, rect) :: rest]) ++ new)
        by (rewrite <- app_assoc; reflexivity).
      split; [exact Hrun|]. split.
      * intros c x Hc Hx. apply elem_of_cons in Hc as [->|Hc].
        -- unfold nodes in Hx. cbn [fmap list_fmap fst] in Hx.
           apply elem_of_cons in Hx as [->|Hx]; [lia|]. specialize (Hfresh x Hx). lia.
        -- specialize (Hge c x Hc Hx). lia.
      * intros [|i] c Hi.
        -- injection Hi as <-. exists k, rest.*1. split; [reflexivity|].
           split; [exact Hfresh|].
           intros [|i'] c' x Hlt Hc' Hx; [lia|]. cbn in Hc'.
           assert (S k ≤ x); [|lia].
           eapply Hge; [|exact Hx]. eapply list_elem_of_lookup_2. exact Hc'.
        -- cbn in Hi. destruct (Hord i c Hi) as (seed & rest' & Hn & Hr & Hlater).
           exists seed, rest'. split; [exact Hn|]. split; [exact Hr|].
           intros [|i'] c' x Hlt Hc' Hx; [lia|]. cbn in Hc'.
           eapply Hlater; [|exact Hc'|exact Hx]. lia.
Qed.

End DiscoveryOrder.

(** X5.  Each component starts with its smallest position, and that position
    is smaller than every position of every later component: components are
    numbered by their first rectangle. *)
Theorem components_in_discovery_order (bboxes : list Rect) (threshold : Q) :
  ∃ comps,
    components bboxes threshold = Ok comps
    ∧ ∀ i c, comps !! i = Some c →
        ∃ seed rest,
          nodes c = seed :: rest
          ∧ (∀ x, x ∈ rest → seed < x)
          ∧ ∀ i' c' x, i < i' → comps !! i' = Some c' → x ∈ nodes c' → seed < x.
Proof.
  destruct (seeds_loop_ordered bboxes (adjacency bboxes threshold))
    with (m := length bboxes) (k := 0) (v := replicate (length bboxes) false)
         (comps := @nil (list (nat * Rect)))
    as (v' & new & Hrun & _ & Hord).
  - intros i j He. eapply edge_lt. exact He.
  - reflexivity.
  - apply length_replicate.
  - intros i Hi. lia.
  - exists new. split; [|exact Hord].
    unfold components, find_components. rewrite Hrun. reflexivity.
Qed.


(** ** More on merging *)

Lemma rect_or_least (R a b : Rect) :
  (positive_extent a → encloses R a) → (positive_extent b → encloses R b) →
  positive_extent (rect_or a b) → encloses R (rect_or a b).
Proof.
  intros Ha Hb. destruct (rect_is_empty b) eqn:Eb.
  - apply rect_is_empty_true in Eb. rewrite rect_or_empty_r by exact Eb. exact Ha.
  - apply rect_is_empty_false in Eb. destruct (rect_is_empty a) eqn:Ea.
    + apply rect_is_empty_true in Ea. rewrite rect_or_empty_l by assumption. exact Hb.
    + apply rect_is_empty_false in Ea. rewrite rect_or_positive by assumption.
      intros _. destruct (Ha Ea) as (?&?&?&?). destruct (Hb Eb) as (?&?&?&?).
      unfold encloses; simpl.
      repeat split; first [apply Q.min_glb | apply Q.max_lub]; assumption.
Qed.

Lemma merge_loop_least (R : Rect) (rest : list Rect) (acc : Rect) :
  (positive_extent acc → encloses R acc) →
  (∀ m, m ∈ rest → positive_extent m → encloses R m) →
  positive_extent (merge_loop acc rest) → encloses R (merge_loop acc rest).
Proof.
  revert acc. induction rest as [|b rest IH]; intros acc Hacc Hrest; simpl; [exact Hacc|].
  apply IH.
  - apply rect_or_least; [exact Hacc | apply Hrest; left].
  - intros m Hm. apply Hrest. right. exact Hm.
Qed.

Lemma merge_least (group : list Rect) (r R : Rect) :
  merge_bounding_boxes group = Some r →
  (∀ m, m ∈ group → positive_extent m → encloses R m) →
  positive_extent r → encloses R r.
Proof.
  destruct group as [|first rest]; [discriminate|].
  rewrite merge_cons. intros [= <-] HR.
  apply merge_loop_least; [apply HR; left | intros m Hm; apply HR; right; exact Hm].
Qed.

Lemma merge_loop_all_empty (rest : list Rect) (acc : Rect) :
  (∀ m, m ∈ rest → ¬ positive_extent m) → merge_loop acc rest = acc.
Proof.
  revert acc. induction rest as [|b rest IH]; intros acc Hrest; simpl; [reflexivity|].
  rewrite rect_or_empty_r by (apply Hrest; left).
  apply IH. intros m Hm. apply Hrest. right. exact Hm.
Qed.

Lemma encloses_antisym (a b : Rect) : encloses a b → encloses b a → rect_equiv a b.
Proof.
  unfold encloses, rect_equiv. intros (?&?&?&?) (?&?&?&?).
  repeat split; apply Qle_antisym; assumption.
Qed.

(** X6.  The rectangle merged from a non-empty list encloses every member
    of positive width and height; when there is such a member, every
    rectangle that encloses all of them encloses the merged one, which is
    thus the smallest; and when no member after the first has positive width
    and height, the merged rectangle is the first member as it is. *)
Theorem merge_is_smallest_enclosing (first : Rect) (rest : list Rect) :
  ∃ r,
    merge_bounding_boxes (first :: rest) = Some r
    ∧ (∀ m, m ∈ first :: rest → positive_extent m → encloses r m)
    ∧ ((∃ m, m ∈ first :: rest ∧ positive_extent m) →
       ∀ R, (∀ m, m ∈ first :: rest → positive_extent m → encloses R m) →
            encloses R r)
    ∧ ((∀ m, m ∈ rest → ¬ positive_extent m) → r = first).
Proof.
  exists (merge_loop first rest). split; [apply merge_cons|].
  assert (Hin : ∀ m, m ∈ first :: rest → positive_extent m →
                     encloses (merge_loop first rest) m).
  { intros m Hm Hpos. destruct (merge_encloses _ _ Hpos Hm) as (r & Hr & He).
    rewrite merge_cons in Hr. injection Hr as <-. exact He. }
  split; [exact Hin|]. split.
  - intros (m & Hm & Hpos) R HR. eapply merge_least; [apply merge_cons | exact HR|].
    eapply encloses_positive; [apply Hin; eassumption | exact Hpos].
  - apply merge_loop_all_empty.
Qed.

(** X7.  When some member has positive width and height, merging a
    permutation of the list gives the same rectangle, up to the
    representation of the coordinates. *)
Theorem merge_ignores_order (group group' : list Rect) (r : Rect) :
  group ≡ₚ group' →
  (∃ m, m ∈ group ∧ positive_extent m) →
  merge_bounding_boxes group = Some r →
  ∃ r', merge_bounding_boxes group' = Some r' ∧ rect_equiv r r'.
Proof.
  intros Hperm (m0 & Hm0 & Hpos0) Hr.
  assert (Hne : group' ≠ []).
  { intros ->. apply Permutation_nil_r in Hperm. subst group. discriminate. }
  destruct group' as [|first' rest'] eqn:E; [contradiction|]. rewrite <- E in *.
  exists (merge_loop first' rest').
  assert (Hr' : merge_bounding_boxes group' = Some (merge_loop first' rest'))
    by (rewrite E; apply merge_cons).
  split; [exact Hr'|].
  assert (Hin : ∀ m, m ∈ group → positive_extent m → encloses r m).
  { intros m Hm Hpos. destruct (merge_encloses _ _ Hpos Hm) as (r0 & Hr0 & He). congruence. }
  assert (Hin' : ∀ m, m ∈ group → positive_extent m →
                      encloses (merge_loop first' rest') m).
  { intros m Hm Hpos. rewrite Hperm in Hm.
    destruct (merge_encloses _ _ Hpos Hm) as (r0 & Hr0 & He). congruence. }
  apply encloses_antisym.
  - eapply merge_least; [exact Hr' | |].
    + intros m Hm. rewrite <- Hperm in Hm. apply Hin, Hm.
    + eapply encloses_positive; [apply Hin'; eassumption | exact Hpos0].
  - eapply merge_least; [exact Hr | exact Hin' |].
    eapply encloses_positive; [apply Hin; eassumption | exact Hpos0].
Qed.

Lemma merge_ignores_order_witness :
  ∃ r', merge_bounding_boxes (reverse unit_squares) = Some r'
        ∧ rect_equiv (mkRect 0 0 11 11) r'.
Proof.
  apply (merge_ignores_order unit_squares (reverse unit_squares) (mkRect 0 0 11 11)).
  - symmetry. apply reverse_Permutation.
  - exists (mkRect 0 0 1 1). split; [left | split; simpl; lra].
  - vm_compute. reflexivity.
Defined.

(** ** More on grouping and chunking *)

Lemma expect_rects_Some (l : list Rect) : expect_rects (Some <$> l) = Ok l.
Proof.
  unfold expect_rects. induction l as [|r l IH]; [reflexivity|].
  cbn [fmap list_fmap mapM]. cbn [mbind result_bind]. fold (Some <$> l).
  rewrite IH. reflexivity.
Qed.

(** The chunks of [process_large_drawing] make up the list. *)
Lemma chunks_concat (M : nat) :
  ∀ n (l : list Rect),
    length l ≤ n * M →
    concat ((λ k, slice l (k * M) ((k + 1) * M)) <$> seq 0 n) = l.
Proof.
  assert (Hslice : ∀ (l : list Rect) k, slice l (k * M) ((k + 1) * M) = take M (drop (k * M) l)).
  { intros l k. unfold slice. f_equal. lia. }
  induction n as [|n IH]; intros l Hlen.
  - destruct l; [reflexivity | simpl in Hlen; lia].
  - cbn [seq fmap list_fmap concat]. rewrite Hslice. simpl (0 * M). rewrite drop_0.
    transitivity (take M l ++ drop M l); [|apply take_drop]. f_equal.
    rewrite <- (IH (drop M l)) by (rewrite length_drop; lia).
    rewrite <- fmap_S_seq, <- list_fmap_compose. f_equal. apply list_fmap_ext.
    intros _ k _. unfold compose.
    rewrite (Hslice l (S k)), (Hslice (drop M l) k), drop_drop. f_equal; f_equal; lia.
Qed.

Lemma chunk_count_covers (len M : nat) : M ≠ 0 → len ≤ (len `div` M + 1) * M.
Proof.
  intros HM. pose proof (Nat.div_mod_eq len M) as Hdm.
  pose proof (Nat.mod_upper_bound len M HM). lia.
Qed.

Section ChunkLoop.

Variable bboxes : list Rect.
Variable max_drawings : nat.
Variable threshold : Q.

Lemma chunk_loop (ks : list nat) (acc : list (option Rect)) :
  ∃ res,
    for_each ks
      (λ chunk_index all_results,
         let chunk := slice bboxes (chunk_index * max_drawings)
                                   ((chunk_index + 1) * max_drawings) in
         results ← group_bounding_boxes chunk threshold;
         Ok (all_results ++ results))
      acc = Ok (acc ++ (Some <$> res))
    ∧ length res
      ≤ length (concat ((λ k, slice bboxes (k * max_drawings) ((k + 1) * max_drawings))
                          <$> ks))
    ∧ ∀ r d, r ∈ concat ((λ k, slice bboxes (k * max_drawings) ((k + 1) * max_drawings))
                           <$> ks) →
             positive_extent d → encloses r d →
             ∃ m, m ∈ res ∧ encloses m d.
Proof.
  cbv zeta. revert acc. induction ks as [|k ks IH]; intros acc.
  - exists []. cbn. rewrite app_nil_r. split; [reflexivity|].
    split; [reflexivity | intros r d Hr; inversion Hr].
  - destruct (group_returns_rects
                (slice bboxes (k * max_drawings) ((k + 1) * max_drawings)) threshold)
      as (merged & Hrun & Hlen & _ & Hcov).
    destruct (IH (acc ++ (Some <$> merged))) as (res & Hloop & Hlen' & Hcov').
    exists (merged ++ res). cbn [for_each]. rewrite Hrun. run_bind.
    rewrite Hloop, fmap_app, app_assoc. split; [reflexivity|].
    cbn [fmap list_fmap concat]. rewrite !length_app. split; [lia|].
    intros r d Hr Hd He. apply elem_of_app in Hr as [Hr|Hr].
    + destruct (Hcov r d Hr Hd He) as (m & Hm & He'). exists m. split; [|exact He'].
      apply elem_of_app. left. exact Hm.
    + destruct (Hcov' r d Hr Hd He) as (m & Hm & He'). exists m. split; [|exact He'].
      apply elem_of_app. right. exact Hm.
Qed.

End ChunkLoop.

(** What [process_large_drawing] gives in the model for a positive chunk
    size. *)
Lemma process_large_drawing_returns (drawings : list Drawing) (max_drawings : nat)
    (threshold : Q) :
  max_drawings ≠ 0 →
  ∃ rects,
    process_large_drawing drawings max_drawings threshold = Ok (Some <$> rects)
    ∧ length rects ≤ length (drawing_bboxes drawings)
    ∧ ∀ r d, r ∈ drawing_bboxes drawings → positive_extent d → encloses r d →
        ∃ m, m ∈ rects ∧ encloses m d.
Proof.
  intros HM. unfold process_large_drawing.
  destruct (decide _) as [_|Hge].
  { destruct (group_returns_rects (drawing_bboxes drawings) threshold)
      as (merged & Hrun & Hlen & _ & Hcov). eauto. }
  unfold floordiv. destruct (decide (max_drawings = 0)); [contradiction|]. run_bind.
  destruct (chunk_loop (drawing_bboxes drawings) max_drawings threshold
              (seq 0 (length (drawing_bboxes drawings) `div` max_drawings + 1)) [])
    as (res & Hloop & Hlen & Hcov).
  rewrite chunks_concat in Hlen, Hcov by (apply chunk_count_covers; exact HM).
  cbv zeta in Hloop. cbv zeta. rewrite Hloop. run_bind. cbn [app]. rewrite expect_rects_Some. run_bind.
  destruct (group_returns_rects res threshold) as (rects & Hrun & Hlen2 & _ & Hcov2).
  exists rects. split; [exact Hrun|]. split; [lia|].
  intros r d Hr Hd He. destruct (Hcov r d Hr Hd He) as (m1 & Hm1 & He1).
  exact (Hcov2 m1 d Hm1 Hd He1).
Qed.

Lemma process_large_drawing_zero (drawings : list Drawing) (threshold : Q) :
  process_large_drawing drawings 0 threshold = Raise ZeroDivisionError.
Proof.
  unfold process_large_drawing. destruct (decide _) as [Hlt|_]; [lia | reflexivity].
Qed.

(** X8.  Whenever [process_large_drawing] returns, its list holds
    rectangles only (no [None] reaches the second grouping of the chunked
    path), no more of them than the drawings it kept; with chunk size 0 it
    raises [ZeroDivisionError], whatever the drawings. *)
Theorem process_large_drawing_outcome (drawings : list Drawing) (threshold : Q) :
  (∀ max_drawings out,
     process_large_drawing drawings max_drawings threshold = Ok out →
     ∃ rects, out = Some <$> rects ∧ length rects ≤ length (drawing_bboxes drawings))
  ∧ process_large_drawing drawings 0 threshold = Raise ZeroDivisionError.
Proof.
  split; [|apply process_large_drawing_zero].
  intros M out Hout. destruct (decide (M = 0)) as [->|HM].
  - rewrite process_large_drawing_zero in Hout. discriminate.
  - destruct (process_large_drawing_returns drawings M threshold HM)
      as (rects & Hrun & Hlen & _).
    exists rects. split; [congruence | exact Hlen].
Qed.

(** X9.  Whenever [process_large_drawing] returns, every rectangle of
    positive width and height that was handed to grouping lies inside one of
    the returned rectangles, on the chunked path too. *)
Theorem process_large_drawing_covers_input (drawings : list Drawing)
    (max_drawings : nat) (threshold : Q) (out : list (option Rect)) (r : Rect) :
  process_large_drawing drawings max_drawings threshold = Ok out →
  r ∈ drawing_bboxes drawings → positive_extent r →
  ∃ m, Some m ∈ out ∧ encloses m r.
Proof.
  intros Hout Hr Hpos. destruct (decide (max_drawings = 0)) as [->|HM].
  - rewrite process_large_drawing_zero in Hout. discriminate.
  - destruct (process_large_drawing_returns drawings max_drawings threshold HM)
      as (rects & Hrun & _ & Hcov).
    destruct (Hcov r r Hr Hpos (encloses_refl r)) as (m & Hm & He).
    exists m. split; [|exact He].
    assert (out = Some <$> rects) as -> by congruence.
    apply list_elem_of_fmap. eauto.
Qed.

Lemma process_large_drawing_covers_input_witness :
  ∃ m, Some m ∈ [Some (mkRect 0 0 100 100)] ∧ encloses m (mkRect 50 50 51 51).
Proof.
  apply (process_large_drawing_covers_input L_shape 2 5).
  - vm_compute. reflexivity.
  - vm_compute. apply list_elem_of_In. simpl. tauto.
  - split; simpl; lra.
Defined.

(** X10.  The chunks [bboxes[k * M : (k + 1) * M]] for [k] below
    [len(bboxes) // M + 1] are at most [M] long and, put end to end, are the
    list itself. *)
Theorem chunks_make_up_the_list (bboxes : list Rect) (max_drawings : nat) :
  max_drawings ≠ 0 →
  let num_chunks := length bboxes `div` max_drawings + 1 in
  let chunk k := slice bboxes (k * max_drawings) ((k + 1) * max_drawings) in
  concat (chunk <$> seq 0 num_chunks) = bboxes
  ∧ ∀ k, length (chunk k) ≤ max_drawings.
Proof.
  intros HM num_chunks chunk. split.
  - apply chunks_concat, chunk_count_covers, HM.
  - intros k. unfold chunk, slice. rewrite length_take. lia.
Qed.

Lemma chunks_make_up_the_list_witness :
  concat ((λ k, slice unit_squares (k * 3) ((k + 1) * 3)) <$> seq 0 (4 `div` 3 + 1))
  = unit_squares
  ∧ ∀ k, length (slice unit_squares (k * 3) ((k + 1) * 3)) ≤ 3.
Proof.
  apply (chunks_make_up_the_list unit_squares 3). discriminate.
Defined.

(** ** [are_bounding_boxes_close] *)

Lemma are_bounding_boxes_close_iff (a b : Rect) (threshold : Q) :
  are_bounding_boxes_close a b threshold = true
  ↔ (Qabs (x0 a - x1 b) < threshold)%Q ∨ (Qabs (x1 a - x0 b) < threshold)%Q
    ∨ (Qabs (y0 a - y1 b) < threshold)%Q ∨ (Qabs (y1 a - y0 b) < threshold)%Q.
Proof.
  unfold are_bounding_boxes_close. rewrite !orb_true_iff, !Qltb_lt. tauto.
Qed.

(** X11.  [are_bounding_boxes_close] does not depend on the order of its two
    rectangles, and is false for every pair when the threshold is not
    positive. *)
Theorem are_bounding_boxes_close_symmetric (a b : Rect) (threshold : Q) :
  are_bounding_boxes_close a b threshold = are_bounding_boxes_close b a threshold
  ∧ ((threshold <= 0)%Q → are_bounding_boxes_close a b threshold = false).
Proof.
  split.
  - unfold are_bounding_boxes_close.
    rewrite (Qabs_Qminus (x0 b) (x1 a)), (Qabs_Qminus (x1 b) (x0 a)),
            (Qabs_Qminus (y0 b) (y1 a)), (Qabs_Qminus (y1 b) (y0 a)).
    destruct (Qltb (Qabs (x0 a - x1 b)) threshold),
             (Qltb (Qabs (x1 a - x0 b)) threshold),
             (Qltb (Qabs (y0 a - y1 b)) threshold),
             (Qltb (Qabs (y1 a - y0 b)) threshold); reflexivity.
  - intros HT. apply not_true_iff_false. rewrite are_bounding_boxes_close_iff.
    pose proof (Qabs_nonneg (x0 a - x1 b)). pose proof (Qabs_nonneg (x1 a - x0 b)).
    pose proof (Qabs_nonneg (y0 a - y1 b)). pose proof (Qabs_nonneg (y1 a - y0 b)).
    intros [?|[?|[?|?]]]; lra.
Qed.

(** X12.  A rectangle is close to itself only when it is narrower or lower
    than the threshold: the function compares facing edges only. *)
Theorem are_bounding_boxes_close_to_itself (a : Rect) (threshold : Q) :
  valid a →
  (are_bounding_boxes_close a a threshold = true
   ↔ (x1 a - x0 a < threshold)%Q ∨ (y1 a - y0 a < threshold)%Q).
Proof.
  intros [Hx Hy]. rewrite are_bounding_boxes_close_iff.
  rewrite (Qabs_Qminus (x0 a) (x1 a)), (Qabs_Qminus (y0 a) (y1 a)).
  rewrite !Qabs_pos by lra. tauto.
Qed.

Lemma are_bounding_boxes_close_to_itself_witness :
  are_bounding_boxes_close (mkRect 0 0 100 100) (mkRect 0 0 100 100) 50 = true
  ↔ (100 - 0 < 50)%Q ∨ (100 - 0 < 50)%Q.
Proof.
  apply (are_bounding_boxes_close_to_itself (mkRect 0 0 100 100) 50).
  split; simpl; lra.
Defined.

(** ** [find_surrounding_text] *)

Lemma rect_intersects_iff (a b : Rect) :
  rect_intersects a b = true
  ↔ (x0 a < x1 a ∧ y0 a < y1 a ∧ x0 b < x1 b ∧ y0 b < y1 b
     ∧ x0 a < x1 b ∧ x0 b < x1 a ∧ y0 a < y1 b ∧ y0 b < y1 a)%Q.
Proof.
  unfold rect_intersects, rect_is_empty.
  rewrite !andb_true_iff, !negb_true_iff, !orb_false_iff, !Qltb_lt.
  rewrite <- !not_true_iff_false, !Qle_bool_iff.
  rewrite !Q.max_lub_lt_iff, !Q.min_glb_lt_iff.
  split; intros H; decompose [and] H; repeat split; try lra; apply Qlt_not_le; lra.
Qed.

(** X13.  For a candidate with [left <= right], [top <= bottom] and a
    positive threshold, a rectangle is returned by [find_surrounding_text]
    iff it is the box of a text block (type 0) of positive width and height
    whose edge-to-edge gap to the candidate is below the threshold on both
    axes. *)
Theorem surrounding_text_iff_near (page : Page) (group : Rect) (threshold : Q)
    (r : Rect) :
  valid group → (0 < threshold)%Q →
  (r ∈ find_surrounding_text page group threshold
   ↔ (∃ block, block ∈ p_blocks page ∧ b_type block = 0 ∧ b_bbox block = r)
     ∧ (x0 r < x1 r)%Q ∧ (y0 r < y1 r)%Q
     ∧ (gap_x group r < threshold)%Q ∧ (gap_y group r < threshold)%Q).
Proof.
  intros [Hvx Hvy] HT. unfold find_surrounding_text. rewrite list_elem_of_omap.
  unfold gap_x, gap_y. rewrite !Q.max_lub_lt_iff. split.
  - intros (block & Hin & Hr).
    destruct (decide (b_type block ≠ 0)) as [|Ht]; [discriminate|].
    destruct (rect_intersects _ _) eqn:Hint; [|discriminate]. injection Hr as <-.
    apply rect_intersects_iff in Hint. unfold expanded, rect_add in Hint. simpl in Hint.
    split; [exists block; repeat split; [exact Hin | lia]|].
    decompose [and] Hint. repeat split; lra.
  - intros ((block & Hin & Ht & <-) & Hbx & Hby & [Hx1 Hx2] & [Hy1 Hy2]).
    exists block. split; [exact Hin|].
    destruct (decide (b_type block ≠ 0)); [contradiction|].
    assert (Hint : rect_intersects (expanded group threshold) (b_bbox block) = true).
    { apply rect_intersects_iff. unfold expanded, rect_add. simpl. repeat split; lra. }
    rewrite Hint. reflexivity.
Qed.

Lemma surrounding_text_iff_near_witness :
  let r := mkRect 10 42 40 46 in
  let group := mkRect 10 10 40 40 in
  r ∈ find_surrounding_text captioned group 5
  ↔ (∃ block, block ∈ p_blocks captioned ∧ b_type block = 0 ∧ b_bbox block = r)
    ∧ (x0 r < x1 r)%Q ∧ (y0 r < y1 r)%Q
    ∧ (gap_x group r < 5)%Q ∧ (gap_y group r < 5)%Q.
Proof.
  apply (surrounding_text_iff_near captioned (mkRect 10 10 40 40) 5 (mkRect 10 42 40 46)).
  - split; simpl; lra.
  - lra.
Defined.

(** ** More on the orchestrators *)

Lemma figure_bbox_of_Some (group : Rect) (surrounding : list Rect) :
  ∃ figure_bbox, figure_bbox_of group surrounding = Some figure_bbox.
Proof.
  unfold figure_bbox_of. destruct (decide _); [|eauto].
  simpl. rewrite merge_cons. eauto.
Qed.

Section MoreOrchestratorProperties.

Variable md5_hexdigest : string → string.

Lemma images_loop (page_num : nat) (images_dir : string)
    (items : list (nat * string)) (fs : FS) :
  io_for_each items
    (λ '(img_index, image_bytes) _,
       let image_hash := md5_hexdigest image_bytes in
       let image_name := artifact_name "img" page_num img_index image_hash in
       let image_path := path_join images_dir image_name in
       write_file image_path image_bytes)
    () fs
  = (fs ++ ((λ '(i, image_bytes),
               (path_join images_dir
                  (artifact_name "img" page_num i (md5_hexdigest image_bytes)),
                image_bytes)) <$> items),
     Ok ()).
Proof.
  revert fs. induction items as [|[i image] items IH]; intros fs.
  - cbn. rewrite app_nil_r. reflexivity.
  - cbn [io_for_each]. unfold mbind at 1. unfold io_bind at 1.
    cbv zeta. unfold write_file at 1. rewrite IH, <- app_assoc. reflexivity.
Qed.

Lemma extract_images_run (page : Page) (page_num : nat) (images_dir : string)
    (fs : FS) :
  extract_images md5_hexdigest page page_num images_dir fs
  = (fs ++ imap (λ i image_bytes,
                   (path_join images_dir
                      (artifact_name "img" page_num i (md5_hexdigest image_bytes)),
                    image_bytes)) (p_images page),
     Ok true).
Proof.
  unfold extract_images, enumerate. unfold mbind at 1. unfold io_bind at 1.
  rewrite images_loop, fmap_imap. reflexivity.
Qed.

Lemma figure_step_outcome (page : Page) (page_num : nat) (images_dir : string)
    (min_size max_size : Q) (group_num : nat) (group : option Rect) (fs : FS) :
  ∃ added,
    (figure_step md5_hexdigest page page_num images_dir min_size max_size
                 group_num group fs).1 = fs ++ added
    ∧ length added ≤ 1
    ∧ Forall (figure_write md5_hexdigest page page_num images_dir min_size max_size)
             added.
Proof.
  unfold figure_step. destruct group as [group|];
    [|exists []; rewrite app_nil_r; repeat split; [simpl; lia | constructor]].
  destruct (figure_bbox_of _ _) as [figure_bbox|];
    [|exists []; rewrite app_nil_r; repeat split; [simpl; lia | constructor]].
  destruct (size_filter _ _ _) eqn:Hsize;
    [|exists []; rewrite app_nil_r; repeat split; [simpl; lia | constructor]].
  unfold mbind, io_bind, lift.
  destruct (p_render page ZOOM figure_bbox) as [bytes|e] eqn:Hrender;
    [|exists []; rewrite app_nil_r; repeat split; [simpl; lia | constructor]].
  eexists [_]. unfold write_file. split; [reflexivity|]. split; [simpl; lia|].
  constructor; [|constructor]. exists group_num, figure_bbox. auto.
Qed.

Lemma figures_loop_outcome (page : Page) (page_num : nat) (images_dir : string)
    (min_size max_size : Q) (items : list (nat * option Rect)) :
  ∀ fs,
    ∃ added,
      (figures_loop md5_hexdigest page page_num images_dir min_size max_size
                    items fs).1 = fs ++ added
      ∧ length added ≤ length items
      ∧ Forall (figure_write md5_hexdigest page page_num images_dir min_size max_size)
               added.
Proof.
  unfold figures_loop. induction items as [|[k g] items IH]; intros fs.
  - exists []. cbn. rewrite app_nil_r. repeat split; [lia | constructor].
  - cbn [io_for_each]. unfold mbind at 1. unfold io_bind at 1.
    destruct (figure_step_outcome page page_num images_dir min_size max_size k g fs)
      as (added1 & H1 & Hlen1 & Hw1).
    destruct (figure_step _ _ _ _ _ _ _ g fs) as [fs1 [u|e]]; cbn [fst] in H1; subst fs1.
    + destruct u. destruct (IH (fs ++ added1)) as (added2 & H2 & Hlen2 & Hw2).
      exists (added1 ++ added2). cbn beta iota. rewrite H2, app_assoc. split; [reflexivity|].
      split; [rewrite length_app; simpl; lia | apply Forall_app; auto].
    + exists added1. split; [reflexivity|]. split; [simpl; lia | exact Hw1].
Qed.

Lemma extract_vector_outcome (page : Page) (page_num : nat)
    (images_dir : string) (fs : FS) :
  ∃ added,
    (extract_vector md5_hexdigest page page_num images_dir fs).1 = fs ++ added
    ∧ length added ≤ length (drawing_bboxes (p_drawings page))
    ∧ Forall (figure_write md5_hexdigest page page_num images_dir
                (page_size page * MIN_SIZE) (page_size page * MAX_SIZE)) added.
Proof.
  unfold extract_vector. cbv zeta.
  unfold mbind at 1. unfold io_bind at 1. unfold lift.
  destruct (process_large_drawing_returns (p_drawings page) MAX_DRAWINGS THRESHOLD)
    as (rects & Hrun & Hlen & _); [discriminate|].
  rewrite Hrun. unfold mbind. unfold io_bind.
  destruct (figures_loop_outcome page page_num images_dir
              (page_size page * MIN_SIZE) (page_size page * MAX_SIZE)
              (enumerate (Some <$> rects)) fs) as (added & H1 & Hlen1 & Hw).
  exists added.
  destruct (figures_loop _ _ _ _ _ _ _) as [fs1 [u|e]] eqn:E; cbn [fst snd] in *;
    (split; [exact H1|]); (split;
      [unfold enumerate in Hlen1; rewrite length_imap, length_fmap in Hlen1; lia|]);
    exact Hw.
Qed.

(** X15.  Whatever its outcome, [extract_vector] leaves what was written
    before as it is and adds at most one file per rectangle handed to
    grouping; each added file holds the rendering of a region whose area is
    strictly between 5% and 30% of the page area, under a name made from the
    page number, a candidate number and the digest of the bytes. *)
Theorem extract_vector_writes_accepted_figures (page : Page) (page_num : nat)
    (images_dir : string) (fs : FS) :
  ∃ added,
    (extract_vector md5_hexdigest page page_num images_dir fs).1 = fs ++ added
    ∧ length added ≤ length (drawing_bboxes (p_drawings page))
    ∧ ∀ path data, (path, data) ∈ added →
        ∃ k figure_bbox,
          (page_size page * (5 # 100) < bbox_area figure_bbox)%Q
          ∧ (bbox_area figure_bbox < page_size page * (30 # 100))%Q
          ∧ p_render page 4 figure_bbox = Ok data
          ∧ path = path_join images_dir
                     (artifact_name "fig" page_num k (md5_hexdigest data)).
Proof.
  destruct (extract_vector_outcome page page_num images_dir fs)
    as (added & H1 & Hlen & Hw).
  exists added. split; [exact H1|]. split; [exact Hlen|].
  intros path data Hin. rewrite Forall_forall in Hw.
  destruct (Hw _ Hin) as (k & fb & Hsize & Hrender & Hpath).
  apply size_filter_iff in Hsize as [Hlo Hhi]. exists k, fb. auto.
Qed.

End MoreOrchestratorProperties.

(** ** Artifact names *)

Lemma app_String (c : ascii) (s t : string) : String c s +:+ t = String c (s +:+ t).
Proof. reflexivity. Qed.

Lemma app_Empty (t : string) : "" +:+ t = t.
Proof. reflexivity. Qed.

Lemma all_digits_app (s t : string) :
  all_digits (s +:+ t) = all_digits s && all_digits t.
Proof.
  induction s as [|c s IH]; [reflexivity|].
  rewrite app_String. cbn [all_digits]. rewrite IH, andb_assoc. reflexivity.
Qed.

Lemma pretty_N_char_digit (x : N) : is_digit (pretty_N_char x) = true.
Proof. unfold pretty_N_char. repeat case_match; reflexivity. Qed.

Lemma pretty_N_go_digits (x : N) :
  ∀ s, ∃ d, pretty_N_go x s = d +:+ s ∧ all_digits d = true.
Proof.
  induction (N.lt_wf_0 x) as [x _ IH]; intros s.
  assert (x = 0 ∨ 0 < x)%N as [->|Hpos] by lia.
  - exists "". split; reflexivity.
  - rewrite pretty_N_go_step by exact Hpos.
    destruct (IH (x `div` 10)%N) with (s := String (pretty_N_char (x `mod` 10)) s)
      as (d & -> & Hd); [apply N.div_lt; lia|].
    exists (d +:+ String (pretty_N_char (x `mod` 10)) "").
    rewrite string_app_assoc, app_String, app_Empty. split; [reflexivity|].
    rewrite all_digits_app, Hd. cbn [all_digits]. rewrite pretty_N_char_digit. reflexivity.
Qed.

Lemma pretty_nat_digits (n : nat) : all_digits (pretty n) = true.
Proof.
  unfold pretty, pretty_nat, pretty, pretty_N.
  destruct (decide _); [reflexivity|].
  destruct (pretty_N_go_digits (N.of_nat n) "") as (d & -> & Hd).
  rewrite string_app_nil_r. exact Hd.
Qed.

(** A run of digits followed by a character that is no digit is read off a
    string in one way only. *)
Lemma digits_prefix_unique (d1 d2 : string) (c1 c2 : ascii) (r1 r2 : string) :
  all_digits d1 = true → all_digits d2 = true →
  is_digit c1 = false → is_digit c2 = false →
  d1 +:+ String c1 r1 = d2 +:+ String c2 r2 →
  d1 = d2 ∧ String c1 r1 = String c2 r2.
Proof.
  revert d2. induction d1 as [|a d1 IH]; intros [|b d2] H1 H2 Hc1 Hc2 Heq.
  - rewrite !app_Empty in Heq. auto.
  - rewrite app_Empty, app_String in Heq. injection Heq as -> _.
    cbn [all_digits] in H2. apply andb_true_iff in H2 as [H2 _]. congruence.
  - rewrite app_Empty, app_String in Heq. injection Heq as -> _.
    cbn [all_digits] in H1. apply andb_true_iff in H1 as [H1 _]. congruence.
  - rewrite !app_String in Heq. injection Heq as -> Heq.
    cbn [all_digits] in H1, H2.
    apply andb_true_iff in H1 as [_ H1]. apply andb_true_iff in H2 as [_ H2].
    destruct (IH d2 H1 H2 Hc1 Hc2 Heq) as [-> ?]. auto.
Qed.

Lemma artifact_name_inj (kind kind' : string) (p p' i i' : nat) (h h' : string) :
  (kind = "img" ∨ kind = "fig") → (kind' = "img" ∨ kind' = "fig") →
  artifact_name kind p i h = artifact_name kind' p' i' h' →
  kind = kind' ∧ p = p' ∧ i = i'.
Proof.
  intros Hk Hk'. unfold artifact_name. intros Heq.
  apply (inj (String.app "page")) in Heq.
  apply digits_prefix_unique in Heq as [Hp Heq];
    [|apply pretty_nat_digits..|reflexivity|reflexivity].
  apply (inj pretty) in Hp. injection Heq as Heq.
  assert (Hrest : kind = kind'
                  ∧ pretty i +:+ "_hash" +:+ substring 0 8 h +:+ ".png"
                    = pretty i' +:+ "_hash" +:+ substring 0 8 h' +:+ ".png").
  { destruct Hk as [->| ->], Hk' as [->| ->]; rewrite !app_String, !app_Empty in Heq;
      try discriminate; injection Heq as Heq; auto. }
  destruct Hrest as [Hkind Heq'].
  apply digits_prefix_unique in Heq' as [Hi _];
    [|apply pretty_nat_digits..|reflexivity|reflexivity].
  apply (inj pretty) in Hi. auto.
Qed.

Lemma path_join_inj (a b b' : string) : path_join a b = path_join a b' → b = b'.
Proof.
  unfold path_join. destruct (decide (a = "")); [auto|].
  destruct (String.get _ a) as [c|].
  - destruct (decide (c = "/"%char)); intros H; apply (inj (String.app a)) in H; auto.
    apply (inj (String.app "/")) in H. exact H.
  - intros H. apply (inj (String.app a)) in H. apply (inj (String.app "/")) in H. exact H.
Qed.

(** X18.  Two artifact names of the kinds the module uses are equal only
    for the same kind, page number and position. *)
Theorem artifact_names_distinguish (kind kind' : string) (p p' i i' : nat)
    (h h' : string) :
  (kind = "img" ∨ kind = "fig") → (kind' = "img" ∨ kind' = "fig") →
  artifact_name kind p i h = artifact_name kind' p' i' h' →
  kind = kind' ∧ p = p' ∧ i = i'.
Proof. apply artifact_name_inj. Qed.

Lemma artifact_names_distinguish_witness :
  "fig" = "fig" ∧ 12 = 12 ∧ 3 = 3.
Proof.
  apply (artifact_names_distinguish "fig" "fig" 12 12 3 3 "0123456789abcdef" "01234567ffff");
    [right; reflexivity | right; reflexivity | vm_compute; reflexivity].
Defined.

(** X14.  Whenever [extract_images] completes, it has returned [True] and
    added one file for each embedded image of the page, in order, holding the
    image's bytes, and no two of the added files have the same path. *)
Theorem extract_images_writes_every_image (md5_hexdigest : string → string)
    (page : Page) (page_num : nat) (images_dir : string) (fs fs' : FS) (b : bool) :
  extract_images md5_hexdigest page page_num images_dir fs = (fs', Ok b) →
  b = true
  ∧ ∃ added, fs' = fs ++ added ∧ added.*2 = p_images page ∧ NoDup added.*1.
Proof.
  rewrite extract_images_run. intros [= <- <-]. split; [reflexivity|].
  eexists. split; [reflexivity|]. split.
  - rewrite fmap_imap. apply list_eq. intros i.
    rewrite list_lookup_imap. destruct (p_images page !! i); reflexivity.
  - apply NoDup_alt. intros i j path Hi Hj.
    rewrite list_lookup_fmap, list_lookup_imap in Hi, Hj.
    destruct (p_images page !! i) as [bi|]; [|discriminate].
    destruct (p_images page !! j) as [bj|]; [|discriminate].
    simpl in Hi, Hj. injection Hi as <-. injection Hj as Hj.
    apply path_join_inj, artifact_name_inj in Hj as (_ & _ & Hj); auto.
Qed.

Lemma extract_images_writes_every_image_witness :
  true = true
  ∧ ∃ added,
      (extract_images constant_digest two_images 0 "out" []).1 = [] ++ added
      ∧ added.*2 = p_images two_images ∧ NoDup added.*1.
Proof.
  apply (extract_images_writes_every_image constant_digest two_images 0 "out" []).
  vm_compute. reflexivity.
Defined.

(** ** Rectangles that end up in one figure *)

Lemma component_is_merged (bboxes : list Rect) (threshold : Q)
    (comps : list (list (nat * Rect))) (c : list (nat * Rect)) :
  components bboxes threshold = Ok comps → c ∈ comps →
  ∃ merged m,
    group_bounding_boxes bboxes threshold = Ok (Some <$> merged)
    ∧ m ∈ merged ∧ merge_bounding_boxes c.*2 = Some m.
Proof.
  intros Hrun Hc.
  destruct (components_returns bboxes threshold) as (comps' & Hrun' & _ & Hok).
  rewrite Hrun in Hrun'. injection Hrun' as <-.
  destruct (merge_components _ _ _ Hok) as (merged & Hmerged & _).
  apply list_elem_of_lookup in Hc as (i & Hi).
  assert (Hm : ((λ group : list (nat * Rect), merge_bounding_boxes group.*2) <$> comps) !! i
               = Some (merge_bounding_boxes c.*2))
    by (rewrite list_lookup_fmap, Hi; reflexivity).
  rewrite Hmerged, list_lookup_fmap in Hm.
  destruct (merged !! i) as [m|] eqn:Em; [|discriminate]. injection Hm as Hm.
  exists merged, m.
  split; [unfold group_bounding_boxes; rewrite Hrun; run_bind; rewrite Hmerged; reflexivity|].
  split; [eapply list_elem_of_lookup_2; exact Em | auto].
Qed.

(** X19.  Whenever [group_bounding_boxes] returns, two rectangles of the
    input that have positive width and height and whose edge-to-edge gap is
    at most twice the threshold on both axes lie inside one and the same
    returned rectangle. *)
Theorem nearby_rectangles_share_a_figure (bboxes : list Rect) (threshold : Q)
    (out : list (option Rect)) (i j : nat) (a b : Rect) :
  group_bounding_boxes bboxes threshold = Ok out →
  bboxes !! i = Some a → bboxes !! j = Some b →
  positive_extent a → positive_extent b →
  (gap_x a b <= 2 * threshold)%Q → (gap_y a b <= 2 * threshold)%Q →
  ∃ m, Some m ∈ out ∧ encloses m a ∧ encloses m b.
Proof.
  intros Hout Ha Hb Hpa Hpb Hx Hy.
  destruct (components_returns bboxes threshold) as (comps & Hrun & Hperm & Hok).
  assert (Hin : i ∈ concat (nodes <$> comps)).
  { rewrite Hperm. apply elem_of_seq. apply lookup_lt_Some in Ha. lia. }
  apply elem_of_concat in Hin as (l & Hl & Hic).
  apply list_elem_of_fmap in Hl as (c & -> & Hc).
  rewrite Forall_forall in Hok. destruct (Hok c Hc) as (_ & Hclosed & Hmem).
  assert (Hjc : j ∈ nodes c).
  { destruct (decide (i = j)) as [<-|Hne]; [exact Hic|].
    apply (Hclosed i j Hic). apply edge_iff. exists a, b. unfold gap_within. auto. }
  destruct (component_is_merged _ _ _ _ Hrun Hc) as (merged & m & Hgroup & Hm & Hmerge).
  exists m. split.
  { assert (out = Some <$> merged) as -> by congruence.
    apply list_elem_of_fmap. eauto. }
  assert (Hmember : ∀ k r, k ∈ nodes c → bboxes !! k = Some r → positive_extent r →
                           encloses m r).
  { intros k r Hk Hr Hpos. unfold nodes in Hk.
    apply list_elem_of_fmap in Hk as ([k' r'] & Hk' & Hkr). simpl in Hk'. subst k'.
    assert (r' = r) by (specialize (Hmem k r' Hkr); congruence). subst r'.
    assert (Hrin : r ∈ c.*2)
      by (apply list_elem_of_fmap; exists (k, r); split; [reflexivity | exact Hkr]).
    destruct (merge_encloses _ _ Hpos Hrin) as (m' & Hm' & He). congruence. }
  split; [exact (Hmember i a Hic Ha Hpa) | exact (Hmember j b Hjc Hb Hpb)].
Qed.

Lemma nearby_rectangles_share_a_figure_witness :
  ∃ m, Some m ∈ [Some (mkRect 0 0 5 1)]
       ∧ encloses m (mkRect 0 0 1 1) ∧ encloses m (mkRect 4 0 5 1).
Proof.
  apply (nearby_rectangles_share_a_figure far_apart 2 _ 0 1);
    [vm_compute; reflexivity | reflexivity | reflexivity
    | split; simpl; lra | split; simpl; lra
    | vm_compute; discriminate | vm_compute; discriminate].
Defined.
